(** * PurePod: the episode pipeline of the manager and the worker

    A shallow embedding of [manager/src/models.py], [manager/src/tasks.py],
    [manager/src/main.py] and [worker/main.py].

    - Database tables are finite maps from primary key to row; a request
      handler works on the session's copy of a table and [session.commit()]
      installs that copy.  A handler that raises before its commit leaves
      the tables as they were (the session of [get_db_session] is closed
      without a commit).
    - Exceptions are values of [exn]; a handler returns a [result] together
      with the world it leaves behind.
    - What the environment decides (the clock, the broker, a socket that
      breaks, the disk, the remote feed document) is an explicit input. *)

From Stdlib Require Import ZArith Ascii DecimalString.
From Stdlib Require DecimalPos DecimalZ.
From stdpp Require Import base option list gmap sets strings sorting.

#[local] Set Warnings "-clear-no-such-hyp".

Local Open Scope string_scope.
Local Open Scope Z_scope.
Local Open Scope list_scope.

(** ** Exceptions *)

Inductive exn :=
| HTTPException (status_code : Z) (detail : string)
| AttributeError (name : string)
| OSError
| BrokerError
| FeedError.

Inductive result (A : Type) :=
| Ok (a : A)
| Raise (e : exn).
Arguments Ok {A} a.
Arguments Raise {A} e.

#[global] Instance result_ret : MRet result := fun A a => Ok a.
#[global] Instance result_bind : MBind result := fun A B f m =>
  match m with
  | Ok a => f a
  | Raise e => Raise e
  end.

Definition is_ok {A} (r : result A) : bool :=
  match r with Ok _ => true | Raise _ => false end.

(** ** Python strings *)

(** [str(n)] for an [int]. *)
Definition str (n : Z) : string := NilZero.string_of_int (Z.to_int n).

(** [s.endswith(suffix)]. *)
Fixpoint endswith (s suffix : string) : bool :=
  if String.eqb s suffix then true
  else match s with
       | EmptyString => false
       | String _ s' => endswith s' suffix
       end.

(** [s.replace(a, b)] for single characters [a] and [b]. *)
Fixpoint replace (a b : Ascii.ascii) (s : string) : string :=
  match s with
  | EmptyString => EmptyString
  | String c s' => String (if Ascii.eqb c a then b else c) (replace a b s')
  end.

(** Truth value of an [Optional[str]]: [None] and [""] are false. *)
Definition truthy (o : option string) : bool :=
  match o with
  | None => false
  | Some s => negb (String.eqb s "")
  end.

(** ** models.py *)

(** [class EpisodeStatus(str, enum.Enum)]: the five declared members. *)
Inductive EpisodeStatus :=
| DISCOVERED
| QUEUED
| PROCESSING
| CLEANED
| FAILED.

#[global] Instance EpisodeStatus_eq_dec : EqDecision EpisodeStatus.
Proof. solve_decision. Defined.

(** Attribute access [EpisodeStatus.<name>]: a declared member evaluates to
    that member, any other name raises [AttributeError]. *)
Definition EpisodeStatus_getattr (name : string) : result EpisodeStatus :=
  if String.eqb name "DISCOVERED" then Ok DISCOVERED
  else if String.eqb name "QUEUED" then Ok QUEUED
  else if String.eqb name "PROCESSING" then Ok PROCESSING
  else if String.eqb name "CLEANED" then Ok CLEANED
  else if String.eqb name "FAILED" then Ok FAILED
  else Raise (AttributeError name).

(** [x in (a, b, ...)] on statuses. *)
Definition status_in (s : EpisodeStatus) (t : list EpisodeStatus) : bool :=
  bool_decide (s ∈ t).

Module Feed.
Record t := mk {
  id : Z;
  title : string;
  rss_url : string;
  auto_process : bool;
  created_at : Z;
  updated_at : Z
}.
End Feed.

Module Episode.
Record t := mk {
  id : Z;
  feed_id : Z;
  guid : string;
  status : EpisodeStatus;
  title : string;
  audio_url : string;
  local_filename : option string;
  created_at : Z;
  updated_at : Z
}.

Definition set_status (s : EpisodeStatus) (e : t) : t :=
  mk (id e) (feed_id e) (guid e) s (title e) (audio_url e)
     (local_filename e) (created_at e) (updated_at e).
Definition set_updated_at (now : Z) (e : t) : t :=
  mk (id e) (feed_id e) (guid e) (status e) (title e) (audio_url e)
     (local_filename e) (created_at e) now.
Definition set_local_filename (p : option string) (e : t) : t :=
  mk (id e) (feed_id e) (guid e) (status e) (title e) (audio_url e)
     p (created_at e) (updated_at e).
End Episode.

(** ** tasks.py *)

Definition MANAGER_BASE_URL : string := "http://web:8000".

(** The message [send_task] puts on the [audio_processing] queue:
    [args=[episode_id, audio_url, callback_url]]. *)
Record WorkMessage := mkWork {
  wm_episode_id : Z;
  wm_audio_url : string;
  wm_callback_url : string
}.

(** The broker as the manager sees it: [celery_app.send_task] either
    returns a task whose [id] is handed back, or raises. *)
Definition Broker := WorkMessage -> result string.

Definition dispatch_episode_processing (send_task : Broker)
    (episode_id : Z) (audio_url : string) : result (string * WorkMessage) :=
  let callback_url := MANAGER_BASE_URL +:+ "/upload/" +:+ str episode_id in
  let msg := mkWork episode_id audio_url callback_url in
  task_id ← send_task msg;
  Ok (task_id, msg).

(** ** main.py: the state the handlers share *)

(** A websocket handle, and the JSON object of a progress report. *)
Definition WebSocket := nat.

Record ProgressMessage := mkProgress {
  pm_episode_id : Z;
  pm_progress : Z;
  pm_stage : string
}.

Record World := mkWorld {
  feeds : gmap Z Feed.t;
  episodes : gmap Z Episode.t;
  disk : gmap string string;
  channel : list WorkMessage;
  active_connections : gset WebSocket;
  delivered : list (WebSocket * ProgressMessage)
}.

Definition empty_world : World := mkWorld ∅ ∅ ∅ [] ∅ [].

Definition with_episodes (eps : gmap Z Episode.t) (w : World) : World :=
  mkWorld (feeds w) eps (disk w) (channel w) (active_connections w) (delivered w).
Definition with_feeds (fs : gmap Z Feed.t) (w : World) : World :=
  mkWorld fs (episodes w) (disk w) (channel w) (active_connections w) (delivered w).
Definition with_disk (d : gmap string string) (w : World) : World :=
  mkWorld (feeds w) (episodes w) d (channel w) (active_connections w) (delivered w).
Definition with_channel (c : list WorkMessage) (w : World) : World :=
  mkWorld (feeds w) (episodes w) (disk w) c (active_connections w) (delivered w).
Definition with_connections (s : gset WebSocket)
    (log : list (WebSocket * ProgressMessage)) (w : World) : World :=
  mkWorld (feeds w) (episodes w) (disk w) (channel w) s log.

(** The values a request body or the environment supplies. *)
Record UploadFile := mkUpload {
  filename : option string;
  content_type : option string;
  content : string
}.

(** What [feed_dir.mkdir] and the [aiofiles] write do: the directory call
    may raise; the write may raise, possibly after it left some bytes. *)
Inductive WriteOutcome :=
| Written
| WriteFailed (left_behind : option string).

Record Storage := mkStorage {
  mkdir_ok : bool;
  write : WriteOutcome
}.

(** An item of the remote feed document, with the guid computed for it. *)
Record FeedItem := mkItem {
  item_guid : string;
  item_title : string;
  item_audio_url : string
}.

(** The dict [extract_feed_metadata] returns. *)
Record Metadata := mkMetadata {
  md_title : string;
  md_description : option string;
  md_image_url : option string;
  md_author : option string
}.

Definition PUBLIC_HOSTNAME : string := "localhost".

(** The RSS 2.0 document of [get_feed_rss], before serialisation. *)
Record RssItem := mkRssItem {
  rss_title : string;
  rss_guid : string;
  rss_pubDate : Z;
  enclosure_url : string;
  enclosure_type : string;
  enclosure_length : string
}.

Record RssChannel := mkChannel {
  ch_title : string;
  ch_link : string;
  ch_description : string;
  ch_lastBuildDate : Z;
  ch_items : list RssItem
}.

(** ** main.py: ConnectionManager *)

Section ConnectionManager.
(** [await connection.send_json(message)]: returns or raises. *)
Variable send_json : WebSocket -> ProgressMessage -> result unit.

(** The socket takes the frame. *)
Definition accepts (message : ProgressMessage) (c : WebSocket) : Prop :=
  is_ok (send_json c message) = true.

#[global] Instance accepts_dec message c : Decision (accepts message c).
Proof. unfold accepts. apply _. Defined.

Definition connect (websocket : WebSocket) (w : World) : World :=
  with_connections ({[websocket]} ∪ active_connections w) (delivered w) w.

Definition disconnect (websocket : WebSocket) (w : World) : World :=
  with_connections (active_connections w ∖ {[websocket]}) (delivered w) w.

(** One turn of the loop of [broadcast]: the frame is sent, or the
    [except Exception] branch records the connection. *)
Definition broadcast_step (message : ProgressMessage)
    (acc : gset WebSocket * list (WebSocket * ProgressMessage))
    (connection : WebSocket)
    : gset WebSocket * list (WebSocket * ProgressMessage) :=
  let '(disconnected, log) := acc in
  match send_json connection message with
  | Ok _ => (disconnected, log ++ [(connection, message)])
  | Raise _ => ({[connection]} ∪ disconnected, log)
  end.

Definition broadcast (message : ProgressMessage) (w : World)
    : result unit * World :=
  let '(disconnected, log) :=
    foldl (broadcast_step message) (∅, delivered w)
          (elements (active_connections w)) in
  (Ok tt, with_connections (active_connections w ∖ disconnected) log w).

(** [POST /api/progress/{episode_id}] *)
Definition update_progress (episode_id progress : Z) (stage : string)
    (w : World) : result string * World :=
  let '(r, w') := broadcast (mkProgress episode_id progress stage) w in
  (_ ← r; Ok "ok", w').

(** ** main.py: the completion callback *)

(** [POST /api/upload/{episode_id}] *)
Definition upload_cleaned_audio (now : Z) (env : Storage)
    (episode_id : Z) (file : UploadFile) (w : World)
    : result (string * Z * option string) * World :=
  match episodes w !! episode_id with
  | None =>
      (Raise (HTTPException 404
                ("Episode " +:+ str episode_id +:+ " not found")), w)
  | Some episode =>
      if negb (truthy (filename file))
         || negb (endswith (default "" (filename file)) ".mp3")
      then (Raise (HTTPException 400 "Only MP3 files are accepted"), w)
      else if negb (mkdir_ok env) then (Raise OSError, w)
      else
        let safe_filename :=
          str episode_id +:+ "_"
            +:+ replace "/"%char "_"%char (default "" (filename file)) in
        let relative := str (Episode.feed_id episode) +:+ "/" +:+ safe_filename in
        match write env with
        | WriteFailed left_behind =>
            (Raise (HTTPException 500 "Failed to save file"),
             match left_behind with
             | Some bytes => with_disk (<[relative := bytes]> (disk w)) w
             | None => w
             end)
        | Written =>
            let w1 := with_disk (<[relative := content file]> (disk w)) w in
            let episode' :=
              Episode.set_updated_at now
                (Episode.set_status CLEANED
                   (Episode.set_local_filename (Some relative) episode)) in
            let w2 := with_episodes (<[episode_id := episode']> (episodes w1)) w1 in
            let '(r, w3) := broadcast (mkProgress episode_id 100 "completed") w2 in
            (_ ← r;
             Ok ("File uploaded successfully", episode_id,
                 Episode.local_filename episode'), w3)
        end
  end.
End ConnectionManager.

(** ** main.py: bulk operations on episodes *)

(** One turn of the loop of [ignore_episodes].  The assignment evaluates
    [EpisodeStatus.IGNORED], a name [models.py] does not declare. *)
Definition ignore_step (now : Z) (acc : result (gmap Z Episode.t * Z))
    (episode_id : Z) : result (gmap Z Episode.t * Z) :=
  '(eps, ignored_count) ← acc;
  match eps !! episode_id with
  | Some episode =>
      if status_in (Episode.status episode) [DISCOVERED; FAILED] then
        ignored ← EpisodeStatus_getattr "IGNORED";
        let episode' :=
          Episode.set_updated_at now (Episode.set_status ignored episode) in
        Ok (<[episode_id := episode']> eps, ignored_count + 1)
      else Ok (eps, ignored_count)
  | None => Ok (eps, ignored_count)
  end.

(** [POST /api/episodes/ignore]; the result is the count of ["ignored"]. *)
Definition ignore_episodes (now : Z) (episode_ids : list Z) (w : World)
    : result Z * World :=
  match foldl (ignore_step now) (Ok (episodes w, 0)) episode_ids with
  | Ok (eps, ignored_count) => (Ok ignored_count, with_episodes eps w)
  | Raise e => (Raise e, w)
  end.

(** One turn of the loop of [unignore_episodes]: for a row that exists the
    condition compares its status with [EpisodeStatus.IGNORED]. *)
Definition unignore_step (now : Z) (acc : result (gmap Z Episode.t * Z))
    (episode_id : Z) : result (gmap Z Episode.t * Z) :=
  '(eps, restored_count) ← acc;
  match eps !! episode_id with
  | Some episode =>
      ignored ← EpisodeStatus_getattr "IGNORED";
      if bool_decide (Episode.status episode = ignored) then
        let episode' :=
          Episode.set_updated_at now (Episode.set_status DISCOVERED episode) in
        Ok (<[episode_id := episode']> eps, restored_count + 1)
      else Ok (eps, restored_count)
  | None => Ok (eps, restored_count)
  end.

(** [POST /api/episodes/unignore]; the result is the count of ["restored"]. *)
Definition unignore_episodes (now : Z) (episode_ids : list Z) (w : World)
    : result Z * World :=
  match foldl (unignore_step now) (Ok (episodes w, 0)) episode_ids with
  | Ok (eps, restored_count) => (Ok restored_count, with_episodes eps w)
  | Raise e => (Raise e, w)
  end.

(** The local state of the loop of [queue_episodes]. *)
Record QueueLoop := mkQueueLoop {
  q_session : gmap Z Episode.t;
  queued_count : Z;
  dispatched_tasks : list (Z * string);
  q_channel : list WorkMessage
}.

Section Queue.
Variable send_task : Broker.

(** One turn of the loop: the status is set first, then the dispatch is
    tried; its exception is logged and the loop goes on. *)
Definition queue_step (now : Z) (acc : QueueLoop) (episode_id : Z)
    : QueueLoop :=
  match q_session acc !! episode_id with
  | Some episode =>
      if status_in (Episode.status episode) [DISCOVERED; FAILED] then
        let episode' :=
          Episode.set_updated_at now (Episode.set_status QUEUED episode) in
        let session := <[episode_id := episode']> (q_session acc) in
        match dispatch_episode_processing send_task episode_id
                (Episode.audio_url episode') with
        | Ok (task_id, msg) =>
            mkQueueLoop session (queued_count acc + 1)
              (dispatched_tasks acc ++ [(episode_id, task_id)])
              (q_channel acc ++ [msg])
        | Raise _ =>
            mkQueueLoop session (queued_count acc + 1)
              (dispatched_tasks acc) (q_channel acc)
        end
      else acc
  | None => acc
  end.

(** [POST /api/episodes/queue]; the result is [(queued, tasks)]. *)
Definition queue_episodes (now : Z) (episode_ids : list Z) (w : World)
    : result (Z * list (Z * string)) * World :=
  let final :=
    foldl (queue_step now) (mkQueueLoop (episodes w) 0 [] (channel w))
          episode_ids in
  (Ok (queued_count final, dispatched_tasks final),
   with_channel (q_channel final) (with_episodes (q_session final) w)).
End Queue.

(** ** Feeds *)

(** Rows of a table that satisfy a [where] clause, in table order. *)
Definition select {A} (P : A -> bool) (table : gmap Z A) : list (Z * A) :=
  filter (fun r => P r.2 = true) (map_to_list table).

(** The call [ingest_feed(feed_id, session)] as a handler sees it: the
    episode table it commits and the new episodes, or an exception. *)
Definition Ingest :=
  Z -> gmap Z Episode.t -> result (gmap Z Episode.t * list Episode.t).

(** Modelled from the spec: the upsert of one item by [ingest_feed] of
    [manager/src/ingest.py], which [main.py] imports and which is not among
    the sources.  Section 4.2: an episode with that guid under the feed is
    left untouched, otherwise one is created in [DISCOVERED] (without an
    artifact path) and counts as newly created. *)
Definition ingest_item (now feed_id : Z)
    (acc : gmap Z Episode.t * list Episode.t) (item : FeedItem)
    : gmap Z Episode.t * list Episode.t :=
  let '(eps, created) := acc in
  match select (fun e => bool_decide (Episode.feed_id e = feed_id)
                         && String.eqb (Episode.guid e) (item_guid item)) eps with
  | _ :: _ => acc
  | [] =>
      let new_id := fresh (dom eps) in
      let episode :=
        Episode.mk new_id feed_id (item_guid item) DISCOVERED
          (item_title item) (item_audio_url item) None now now in
      (<[new_id := episode]> eps, created ++ [episode])
  end.

(** Modelled from the spec: the whole pass of [ingest_feed] (section 4.2
    and section 7): a document that cannot be fetched or parsed makes the
    call fail without partial state; otherwise the items are upserted in
    document order. *)
Definition ingest_feed (now : Z) (document : result (list FeedItem)) : Ingest :=
  fun feed_id eps =>
  items ← document;
  Ok (foldl (ingest_item now feed_id) (eps, []) items).

(** [POST /api/feeds].  [metadata] is what [extract_feed_metadata] returned
    ([None] for a falsy result).  The feed is committed before the
    ingestion pass, whose exception is logged and dropped.  The keyword
    arguments [description], [image_url] and [author] are no columns of
    [Feed] in [models.py] and are not part of the row. *)
Definition create_feed (ingest_feed : Ingest) (now : Z)
    (metadata : option Metadata) (rss_url : string) (w : World)
    : result Feed.t * World :=
  match select (fun f => String.eqb (Feed.rss_url f) rss_url) (feeds w) with
  | _ :: _ =>
      (Raise (HTTPException 400 "Feed with this URL already exists"), w)
  | [] =>
      match metadata with
      | None =>
          (Raise (HTTPException 400
                    "Could not parse RSS feed. Please check the URL."), w)
      | Some md =>
          let title := md_title md +:+ " (Purified)" in
          let new_id := fresh (dom (feeds w)) in
          let feed := Feed.mk new_id title rss_url false now now in
          let w1 := with_feeds (<[new_id := feed]> (feeds w)) w in
          match ingest_feed new_id (episodes w1) with
          | Ok (eps, new_episodes) => (Ok feed, with_episodes eps w1)
          | Raise _ => (Ok feed, w1)
          end
      end
  end.

(** [POST /api/feeds/{feed_id}/ingest]; the result is the list of new
    episodes as [(id, title, status)]. *)
Definition trigger_ingest (ingest_feed : Ingest) (feed_id : Z) (w : World)
    : result (list (Z * string * EpisodeStatus)) * World :=
  match feeds w !! feed_id with
  | None =>
      (Raise (HTTPException 404 ("Feed " +:+ str feed_id +:+ " not found")), w)
  | Some _ =>
      match ingest_feed feed_id (episodes w) with
      | Ok (eps, new_episodes) =>
          (Ok (map (fun ep => (Episode.id ep, Episode.title ep, Episode.status ep))
                   new_episodes),
           with_episodes eps w)
      | Raise e => (Raise e, w)
      end
  end.

(** [DELETE /api/feeds/{feed_id}]; the result is [deleted_episodes]. *)
Definition delete_feed (feed_id : Z) (w : World) : result nat * World :=
  match feeds w !! feed_id with
  | None =>
      (Raise (HTTPException 404 ("Feed " +:+ str feed_id +:+ " not found")), w)
  | Some feed =>
      let rows :=
        select (fun e => bool_decide (Episode.feed_id e = feed_id)) (episodes w) in
      let episode_count := length rows in
      let eps := foldl (fun m r => delete r.1 m) (episodes w) rows in
      (Ok episode_count,
       with_feeds (delete feed_id (feeds w)) (with_episodes eps w))
  end.

(** [PATCH /api/feeds/{feed_id}/auto-process] *)
Definition set_auto_process (auto_process : bool) (now : Z) (f : Feed.t)
    : Feed.t :=
  Feed.mk (Feed.id f) (Feed.title f) (Feed.rss_url f) auto_process
    (Feed.created_at f) now.

Definition update_feed_auto_process (now : Z) (feed_id : Z)
    (auto_process : bool) (w : World) : result Feed.t * World :=
  match feeds w !! feed_id with
  | None =>
      (Raise (HTTPException 404 ("Feed " +:+ str feed_id +:+ " not found")), w)
  | Some feed =>
      let feed' := set_auto_process auto_process now feed in
      (Ok feed', with_feeds (<[feed_id := feed']> (feeds w)) w)
  end.


(** ** The published feed *)

(** [ORDER BY created_at DESC]. *)
Definition newer_first (a b : Z * Episode.t) : Prop :=
  Episode.created_at b.2 <= Episode.created_at a.2.

#[global] Instance newer_first_dec a b : Decision (newer_first a b).
Proof. unfold newer_first. apply _. Defined.

Definition rss_item (episode : Episode.t) : RssItem :=
  mkRssItem (Episode.title episode) (Episode.guid episode)
    (Episode.updated_at episode)
    ("https://" +:+ PUBLIC_HOSTNAME +:+ "/files/"
       +:+ default "" (Episode.local_filename episode))
    "audio/mpeg" "0".

(** The rows the loop of [get_feed_rss] turns into items: the query result
    without the rows it skips with [continue]. *)
Definition published_rows (feed_id : Z) (w : World) : list (Z * Episode.t) :=
  filter (fun r => truthy (Episode.local_filename r.2) = true)
    (merge_sort newer_first
       (select (fun e => bool_decide (Episode.feed_id e = feed_id)
                         && bool_decide (Episode.status e = CLEANED))
               (episodes w))).

(** [GET /feed/{feed_id}] *)
Definition get_feed_rss (now : Z) (feed_id : Z) (w : World)
    : result RssChannel :=
  match feeds w !! feed_id with
  | None =>
      Raise (HTTPException 404 ("Feed " +:+ str feed_id +:+ " not found"))
  | Some feed =>
      Ok (mkChannel (Feed.title feed)
            ("https://" +:+ PUBLIC_HOSTNAME +:+ "/feed/" +:+ str feed_id)
            ("Ad-free version of " +:+ Feed.title feed)
            now
            (map (fun r => rss_item r.2) (published_rows feed_id w)))
  end.

(** ** worker/main.py *)

Module Worker.

(** The two [except] clauses of [process_episode] tell a
    [requests.RequestException] from any other [Exception]. *)
Inductive Failure :=
| RequestException
| OtherException.

(** What the environment does to one execution of the task body: each
    phase goes through or raises.  [download] covers [requests.get],
    [raise_for_status] and writing the chunks; [processing] the simulated
    step; [upload] the [requests.post], [raise_for_status] and [json()]. *)
Record Attempt := mkAttempt {
  download : option Failure;
  processing : option Failure;
  upload : option Failure
}.

(** A call [report_progress(episode_id, progress, stage)]; the call itself
    never raises (its own exception is logged). *)
Definition Report := (Z * string)%type.

(** The [try] block: the reports made and the exception that ended it. *)
Definition body (a : Attempt) : list Report * option Failure :=
  let r1 := [(10, "downloading")] in
  match download a with
  | Some f => (r1, Some f)
  | None =>
      let r2 := r1 ++ [(30, "downloaded"); (50, "processing")] in
      match processing a with
      | Some f => (r2, Some f)
      | None =>
          let r3 := r2 ++ [(80, "processing"); (90, "uploading")] in
          match upload a with
          | Some f => (r3, Some f)
          | None => (r3 ++ [(100, "completed")], None)
          end
      end
  end.

(** Celery's [Task.retry(exc=e, countdown=c, max_retries=m)] for a request
    that has been retried [request_retries] times: it re-sends the task
    with [countdown] and raises [Retry], unless the next retry number
    exceeds [max_retries], in which case [exc] is raised. *)
Inductive Outcome :=
| Success
| Retry (countdown : Z)
| Failed (f : Failure).

Definition retry (request_retries : nat) (f : Failure) (countdown : Z)
    (max_retries : nat) : Outcome :=
  if (max_retries <? request_retries + 1)%nat then Failed f
  else Retry countdown.

(** One execution of [process_episode]. *)
Definition process_episode (request_retries : nat) (a : Attempt)
    : list Report * Outcome :=
  match body a with
  | (reports, None) => (reports, Success)
  | (reports, Some RequestException) =>
      (reports ++ [(0, "failed")],
       retry request_retries RequestException 60 3)
  | (reports, Some OtherException) =>
      (reports ++ [(0, "failed")], Failed OtherException)
  end.

(** The worker runs the task and runs it again for every [Retry]; [env]
    gives the environment of the execution with a given retry number.
    The result is the list of executions, [None] when [fuel] runs out. *)
Fixpoint run_task (fuel : nat) (env : nat -> Attempt) (request_retries : nat)
    : option (list (list Report * Outcome)) :=
  match fuel with
  | O => None
  | S fuel' =>
      let execution := process_episode request_retries (env request_retries) in
      match execution.2 with
      | Retry _ =>
          rest ← run_task fuel' env (S request_retries);
          Some (execution :: rest)
      | _ => Some [execution]
      end
  end.

Definition is_retry (o : Outcome) : bool :=
  match o with Retry _ => true | _ => false end.

End Worker.

(** ** The system as a transition system *)

(** Every request the manager serves is a step; the environment's part of
    a step (clock, storage, documents) is chosen freely. *)
Section Transitions.
Variable send_json : WebSocket -> ProgressMessage -> result unit.
Variable send_task : Broker.

Inductive step : World -> World -> Prop :=
| step_create_feed now metadata document rss_url w :
    step w (create_feed (ingest_feed now document) now metadata rss_url w).2
| step_trigger_ingest now document feed_id w :
    step w (trigger_ingest (ingest_feed now document) feed_id w).2
| step_delete_feed feed_id w :
    step w (delete_feed feed_id w).2
| step_queue now episode_ids w :
    step w (queue_episodes send_task now episode_ids w).2
| step_ignore now episode_ids w :
    step w (ignore_episodes now episode_ids w).2
| step_unignore now episode_ids w :
    step w (unignore_episodes now episode_ids w).2
| step_upload now env episode_id file w :
    step w (upload_cleaned_audio send_json now env episode_id file w).2
| step_progress episode_id progress stage w :
    step w (update_progress send_json episode_id progress stage w).2
| step_connect websocket w :
    step w (connect websocket w)
| step_disconnect websocket w :
    step w (disconnect websocket w).

Inductive reachable : World -> Prop :=
| reachable_init : reachable empty_world
| reachable_step w w' : reachable w -> step w w' -> reachable w'.
End Transitions.

(** The artifact path of a row is set exactly when the row is [CLEANED]. *)
Definition artifact_iff_cleaned (eps : gmap Z Episode.t) : Prop :=
  forall id e, eps !! id = Some e ->
    (Episode.local_filename e <> None <-> Episode.status e = CLEANED).

(** Every episode row points at a feed row ([foreign_key="feeds.id"]). *)
Definition referential_integrity (w : World) : Prop :=
  map_Forall (fun _ e => Episode.feed_id e ∈ dom (feeds w)) (episodes w).

(** The row [queue_episodes] writes for [e], and the message it sends. *)
Definition queued (now : Z) (e : Episode.t) : Episode.t :=
  Episode.set_updated_at now (Episode.set_status QUEUED e).

Definition work_message (id : Z) (e : Episode.t) : WorkMessage :=
  mkWork id (Episode.audio_url e) (MANAGER_BASE_URL +:+ "/upload/" +:+ str id).

(** The row [upload_cleaned_audio] writes for [e]. *)
Definition artifact_path (episode_id : Z) (e : Episode.t) (name : string)
    : string :=
  str (Episode.feed_id e) +:+ "/" +:+ str episode_id +:+ "_"
    +:+ replace "/"%char "_"%char name.

Definition cleaned (now : Z) (path : string) (e : Episode.t) : Episode.t :=
  Episode.set_updated_at now
    (Episode.set_status CLEANED (Episode.set_local_filename (Some path) e)).

(** What the loop of [queue_episodes] keeps true of the row [id], of the
    channel and of the task list while the dispatch of [id] fails. *)
Definition stalled (now id : Z) (e : Episode.t) (start acc : QueueLoop) : Prop :=
  (q_session acc !! id = Some e \/ q_session acc !! id = Some (queued now e))
  /\ (forall m, m ∈ q_channel acc -> wm_episode_id m = id -> m ∈ q_channel start)
  /\ (forall t, t ∈ dispatched_tasks acc -> t.1 = id -> t ∈ dispatched_tasks start).

(** The spec's reading of a failed dispatch: the episode is put back to
    [FAILED]. *)
Definition reverts_on_dispatch_failure (send_task : Broker) (now : Z)
    (episode_ids : list Z) (w : World) : Prop :=
  forall id e,
    episodes w !! id = Some e -> id ∈ episode_ids ->
    status_in (Episode.status e) [DISCOVERED; FAILED] = true ->
    is_ok (dispatch_episode_processing send_task id (Episode.audio_url e)) = false ->
    exists e', episodes (queue_episodes send_task now episode_ids w).2 !! id = Some e'
               /\ Episode.status e' = FAILED.

(** The check the completion callback makes on the upload: a name that is
    not empty and ends in [.mp3]. *)
Definition mp3_name (file : UploadFile) : bool :=
  truthy (filename file) && endswith (default "" (filename file)) ".mp3".


(** The spec's reading of the upload check: an accepted upload has media
    type [audio/mpeg]. *)
Definition accepts_only_audio_mpeg
    (send_json : WebSocket -> ProgressMessage -> result unit) (now : Z)
    (env : Storage) (id : Z) (file : UploadFile) (w : World) : Prop :=
  is_ok (upload_cleaned_audio send_json now env id file w).1 = true ->
  content_type file = Some "audio/mpeg".

(** A row the published feed has to carry: of the feed, [CLEANED], with an
    artifact path that is set (not [None], not empty). *)
Definition publishable (feed_id : Z) (r : Z * Episode.t) : Prop :=
  Episode.feed_id r.2 = feed_id
  /\ Episode.status r.2 = CLEANED
  /\ truthy (Episode.local_filename r.2) = true.

#[global] Instance publishable_dec feed_id r : Decision (publishable feed_id r).
Proof. unfold publishable. apply _. Defined.

(** What the retry policy lets the [i]-th execution of a task ([i] retries
    behind it) be, given how its body ended, inside the list [trace] of
    all executions, where it sits at position [pos]. *)
Definition follows_policy (env : nat -> Worker.Attempt)
    (trace : list (list Worker.Report * Worker.Outcome)) (pos i : nat)
    (execution : list Worker.Report * Worker.Outcome) : Prop :=
  execution = Worker.process_episode i (env i)
  /\ (execution.2 <> Worker.Success -> last execution.1 = Some (0, "failed"))
  /\ match (Worker.body (env i)).2 with
     | None => execution.2 = Worker.Success /\ trace !! S pos = None
     | Some Worker.OtherException =>
         execution.2 = Worker.Failed Worker.OtherException
         /\ trace !! S pos = None
     | Some Worker.RequestException =>
         if (i <? 3)%nat
         then execution.2 = Worker.Retry 60 /\ is_Some (trace !! S pos)
         else execution.2 = Worker.Failed Worker.RequestException
              /\ trace !! S pos = None
     end.

(** An environment in which every request of the worker fails. *)
Definition network_down : nat -> Worker.Attempt :=
  fun _ => Worker.mkAttempt (Some Worker.RequestException) None None.

(** The character [c] occurs in [s]. *)
Fixpoint occurs (c : Ascii.ascii) (s : string) : bool :=
  match s with
  | EmptyString => false
  | String a s' => Ascii.eqb a c || occurs c s'
  end.

(** The characters [str] writes: the ten digits and the sign. *)
Definition digit_or_minus (c : Ascii.ascii) : bool :=
  existsb (Ascii.eqb c)
    ["0"; "1"; "2"; "3"; "4"; "5"; "6"; "7"; "8"; "9"; "-"]%char.

(** No two feeds have the same [rss_url]. *)
Definition unique_urls (fs : gmap Z Feed.t) : Prop :=
  forall i j f g, fs !! i = Some f -> fs !! j = Some g ->
    Feed.rss_url f = Feed.rss_url g -> i = j.

(** The row of [id] is absent or in a status [queue_episodes] passes over. *)
Definition settled (session : gmap Z Episode.t) (id : Z) : Prop :=
  match session !! id with
  | None => True
  | Some e => status_in (Episode.status e) [DISCOVERED; FAILED] = false
  end.

(** What the loop of [queue_episodes] keeps true, from the table [eps0] and
    the channel [c0] it started with. *)
Definition dispatch_log (send_task : Broker) (now : Z)
    (eps0 : gmap Z Episode.t) (c0 : list WorkMessage) (acc : QueueLoop)
    : Prop :=
  (exists msgs,
     q_channel acc = c0 ++ msgs
     /\ Forall2 (fun m t => exists e, eps0 !! t.1 = Some e
                                      /\ m = work_message t.1 e)
          msgs (dispatched_tasks acc))
  /\ NoDup (dispatched_tasks acc).*1
  /\ (forall id t, (id, t) ∈ dispatched_tasks acc ->
        exists e, eps0 !! id = Some e
                  /\ status_in (Episode.status e) [DISCOVERED; FAILED] = true
                  /\ send_task (work_message id e) = Ok t
                  /\ q_session acc !! id = Some (queued now e))
  /\ (forall id,
        q_session acc !! id = eps0 !! id
        \/ exists e, eps0 !! id = Some e
                     /\ status_in (Episode.status e) [DISCOVERED; FAILED] = true
                     /\ q_session acc !! id = Some (queued now e))
  /\ (0 <= Z.of_nat (length (dispatched_tasks acc)) <= queued_count acc).

(** The fields of an episode row that identify it and tie it to its feed. *)
Definition same_identity (e e' : Episode.t) : Prop :=
  Episode.id e' = Episode.id e /\ Episode.feed_id e' = Episode.feed_id e
  /\ Episode.guid e' = Episode.guid e /\ Episode.title e' = Episode.title e
  /\ Episode.audio_url e' = Episode.audio_url e
  /\ Episode.created_at e' = Episode.created_at e.

(** Every row of [eps'] continues a row of [eps] under the same key. *)
Definition rows_continue (eps eps' : gmap Z Episode.t) : Prop :=
  forall id e', eps' !! id = Some e' ->
    exists e, eps !! id = Some e /\ same_identity e e'.

(** The reports of an execution of the worker's task that goes through. *)
Definition stages : list Worker.Report :=
  [(10, "downloading"); (30, "downloaded"); (50, "processing");
   (80, "processing"); (90, "uploading"); (100, "completed")].

(** An environment whose first two executions meet a network error and
    whose third goes through. *)
Definition network_recovers : nat -> Worker.Attempt :=
  fun i => if (i <? 2)%nat
           then Worker.mkAttempt None None (Some Worker.RequestException)
           else Worker.mkAttempt None None None.

(** Every feed row is stored under its own id. *)
Definition feeds_keyed_by_id (fs : gmap Z Feed.t) : Prop :=
  forall k f, fs !! k = Some f -> Feed.id f = k.

(** The row of [id] is one a queue request acts on: it exists and is
    [DISCOVERED] or [FAILED]. *)
Definition queueable (eps : gmap Z Episode.t) (id : Z) : bool :=
  match eps !! id with
  | Some e => status_in (Episode.status e) [DISCOVERED; FAILED]
  | None => false
  end.

(** The ids of a request that name a queueable row, each once. *)
Definition queueable_ids (eps : gmap Z Episode.t) (episode_ids : list Z)
    : list Z :=
  filter (fun id => queueable eps id = true) (remove_dups episode_ids).

(** The spec's reading of a duplicate completion callback: the second
    delivery leaves the stored state as the first left it and announces
    nothing more. *)
Definition second_delivery_is_noop
    (send_json : WebSocket -> ProgressMessage -> result unit)
    (now1 now2 : Z) (env : Storage) (id : Z) (file : UploadFile) (w : World)
    : Prop :=
  let first := upload_cleaned_audio send_json now1 env id file w in
  let second := upload_cleaned_audio send_json now2 env id file first.2 in
  episodes second.2 = episodes first.2
  /\ delivered second.2 = delivered first.2.

(** ** Sample data *)

Definition sample_feed : Feed.t :=
  Feed.mk 1 "Show (Purified)" "http://example.com/rss" false 0 0.

Definition sample_episode (st : EpisodeStatus) : Episode.t :=
  Episode.mk 1 1 "guid-a" st "Episode A" "http://example.com/a.mp3" None 0 0.

Definition sample_world (st : EpisodeStatus) : World :=
  mkWorld {[1 := sample_feed]} {[1 := sample_episode st]} ∅ [] {[7%nat]} [].

(** Two feeds; feed 1 has a [QUEUED] and a [CLEANED] episode, feed 2 a
    [DISCOVERED] one. *)
Definition larger_world : World :=
  mkWorld
    {[1 := sample_feed;
      2 := Feed.mk 2 "News (Purified)" "http://example.com/news" true 5 5]}
    {[1 := sample_episode QUEUED;
      2 := Episode.mk 2 1 "guid-b" CLEANED "Episode B" "http://example.com/b.mp3"
             (Some "1/2_b.mp3") 10 20;
      3 := Episode.mk 3 2 "guid-c" DISCOVERED "Episode C"
             "http://example.com/c.mp3" None 30 30]}
    {["1/2_b.mp3" := "ID3"]} [] {[7%nat; 8%nat]} [].

Definition broker_down : Broker := fun _ => Raise BrokerError.
Definition broker_up : Broker :=
  fun m => Ok ("task-" +:+ str (wm_episode_id m)).

Definition socket_up : WebSocket -> ProgressMessage -> result unit :=
  fun _ _ => Ok tt.

Definition disk_ok : Storage := mkStorage true Written.

Definition sample_upload : UploadFile :=
  mkUpload (Some "episode_1_cleaned.mp3") (Some "audio/mpeg") "ID3".

Definition sample_metadata : Metadata :=
  mkMetadata "Other Show" None None None.

Definition text_upload : UploadFile :=
  mkUpload (Some "notes.mp3") (Some "text/plain") "hello".

(** * Properties *)

(** ** The progress broadcaster *)

Section BroadcastFacts.
Variable send_json : WebSocket -> ProgressMessage -> result unit.

Local Abbreviation accepts := (accepts send_json).

Lemma broadcast_fold message (l : list WebSocket) disconnected log :
  foldl (broadcast_step send_json message) (disconnected, log) l =
    (list_to_set (reverse (filter (fun c => ¬ accepts message c) l))
       ∪ disconnected,
     log ++ ((fun c => (c, message)) <$> filter (accepts message) l)).
Proof.
  revert disconnected log.
  induction l as [|c l IH]; intros disconnected log; simpl.
  - rewrite app_nil_r. f_equal. set_solver.
  - destruct (send_json c message) as [u|e] eqn:Hc.
    + rewrite IH.
      rewrite (filter_cons_True (accepts message)) by (unfold accepts; by rewrite Hc).
      rewrite filter_cons_False by (unfold accepts; rewrite Hc; naive_solver).
      rewrite fmap_cons, <- app_assoc. done.
    + rewrite IH.
      rewrite (filter_cons_False (accepts message)) by (unfold accepts; by rewrite Hc).
      rewrite filter_cons_True by (unfold accepts; by rewrite Hc).
      f_equal. rewrite reverse_cons, list_to_set_app_L. set_solver.
Qed.

(** C9.  A publish never raises; afterwards the subscribed observers are
    exactly those that were subscribed and whose own delivery went
    through, and each of them received the event exactly once, whatever
    happened to the deliveries of the others.  The tables, the disk and
    the work channel are untouched. *)
Theorem broadcast_isolates_failures (message : ProgressMessage) (w : World) :
  exists sent,
    broadcast send_json message w =
      (Ok tt,
       with_connections
         (filter (accepts message) (active_connections w))
         (delivered w ++ sent) w)
    /\ NoDup sent
    /\ (forall c m, (c, m) ∈ sent <->
          m = message /\ c ∈ active_connections w /\ accepts message c)
    /\ (forall c, c ∈ active_connections w -> ¬ accepts message c ->
          c ∉ (filter (accepts message) (active_connections w) : gset WebSocket)).
Proof.
  exists ((fun c => (c, message))
            <$> filter (accepts message) (elements (active_connections w))).
  split; [|split; [|split]].
  - unfold broadcast. rewrite broadcast_fold. f_equal. f_equal.
    apply set_eq. intros c.
    rewrite elem_of_difference, elem_of_filter, elem_of_union,
      elem_of_list_to_set, elem_of_reverse, list_elem_of_filter, elem_of_elements.
    destruct (decide (accepts message c)); set_solver.
  - apply NoDup_fmap_2; [intros ?? [=]; done|].
    apply NoDup_filter, NoDup_elements.
  - intros c m. rewrite list_elem_of_fmap. split.
    + intros (c' & [= -> ->] & Hin).
      apply list_elem_of_filter in Hin as [? Hin].
      apply elem_of_elements in Hin. done.
    + intros (-> & Hin & Hok). exists c. split; [done|].
      apply list_elem_of_filter. split; [done|]. by apply elem_of_elements.
  - intros c _ Hno. rewrite elem_of_filter. tauto.
Qed.
End BroadcastFacts.

(** ** Queueing and dispatch *)

Lemma status_in_spec s t : status_in s t = true <-> s ∈ t.
Proof. unfold status_in. apply bool_decide_eq_true. Qed.

Lemma dispatch_message send_task id e :
  dispatch_episode_processing send_task id (Episode.audio_url e) =
    (task_id ← send_task (work_message id e); Ok (task_id, work_message id e)).
Proof. reflexivity. Qed.

Section QueueFacts.
Variable send_task : Broker.
Variables (now id : Z) (e : Episode.t).
Hypothesis He : status_in (Episode.status e) [DISCOVERED; FAILED] = true.
Hypothesis Hdown :
  is_ok (dispatch_episode_processing send_task id (Episode.audio_url e)) = false.

Local Abbreviation stalled := (stalled now id e).

Lemma queued_not_queueable :
  status_in (Episode.status (queued now e)) [DISCOVERED; FAILED] = false.
Proof. reflexivity. Qed.

Lemma queue_step_stalled start acc a :
  stalled start acc -> stalled start (queue_step send_task now acc a).
Proof.
  intros (Hrow & Hch & Hts). unfold queue_step.
  destruct (decide (a = id)) as [->|Hne].
  - destruct Hrow as [Hrow|Hrow]; rewrite Hrow.
    + rewrite He. fold (queued now e).
      change (Episode.audio_url (queued now e)) with (Episode.audio_url e).
      destruct (dispatch_episode_processing send_task id (Episode.audio_url e))
        as [[task_id msg]|ex]; [discriminate Hdown|].
      split; [|done]. right. simpl. apply lookup_insert_eq.
    + rewrite queued_not_queueable. split; [by right|done].
  - destruct (q_session acc !! a) as [episode|] eqn:Ha; [|done].
    destruct (status_in (Episode.status episode) [DISCOVERED; FAILED]); [|done].
    rewrite dispatch_message.
    destruct (send_task _) as [task_id|ex]; unfold stalled; simpl.
    + split; [by rewrite lookup_insert_ne|]. split.
      * intros m [Hm|Hm]%elem_of_app Hid; [by apply Hch|].
        apply list_elem_of_singleton in Hm. subst m. done.
      * intros t [Ht|Ht]%elem_of_app Hid; [by apply Hts|].
        apply list_elem_of_singleton in Ht. subst t. done.
    + split; [by rewrite lookup_insert_ne|done].
Qed.

Lemma queue_step_stays_queued acc a :
  q_session acc !! id = Some (queued now e) ->
  q_session (queue_step send_task now acc a) !! id = Some (queued now e).
Proof.
  intros Hrow. unfold queue_step.
  destruct (decide (a = id)) as [->|Hne].
  - by rewrite Hrow, queued_not_queueable.
  - destruct (q_session acc !! a) as [episode|]; [|done].
    destruct (status_in (Episode.status episode) _); [|done].
    destruct (dispatch_episode_processing send_task a _) as [[??]|?]; simpl;
      by rewrite lookup_insert_ne.
Qed.

Lemma queue_fold_stalled start episode_ids acc :
  stalled start acc ->
  stalled start (foldl (queue_step send_task now) acc episode_ids)
  /\ (id ∈ episode_ids \/ q_session acc !! id = Some (queued now e) ->
      q_session (foldl (queue_step send_task now) acc episode_ids) !! id
        = Some (queued now e)).
Proof.
  revert acc. induction episode_ids as [|a l IH]; intros acc Hacc; simpl.
  - split; [done|]. intros [Hin|Hq]; [by apply elem_of_nil in Hin|done].
  - pose proof (queue_step_stalled start acc a Hacc) as Hnext.
    destruct (IH _ Hnext) as [Hfinal Hrow]. split; [done|].
    intros [Hin|Hq]; apply Hrow.
    + apply elem_of_cons in Hin as [Heq|Hin]; [subst a; right|by left].
      destruct Hacc as ([Hr|Hr] & _ & _).
      * unfold queue_step. rewrite Hr, He. fold (queued now e).
        destruct (dispatch_episode_processing send_task id _) as [[??]|?];
          simpl; apply lookup_insert_eq.
      * by apply queue_step_stays_queued.
    + right. by apply queue_step_stays_queued.
Qed.
End QueueFacts.

(** C1, counterexample.  With the broker down, queueing the one
    [DISCOVERED] episode leaves it [QUEUED], with nothing on the channel. *)
Lemma queue_dispatch_failure_not_reverted :
  ~ reverts_on_dispatch_failure broker_down 100 [1] (sample_world DISCOVERED)
  /\ (episodes (queue_episodes broker_down 100 [1] (sample_world DISCOVERED)).2
        !! 1) = Some (queued 100 (sample_episode DISCOVERED))
  /\ channel (queue_episodes broker_down 100 [1] (sample_world DISCOVERED)).2 = [].
Proof.
  split; [|split; reflexivity].
  intros H.
  destruct (H 1 (sample_episode DISCOVERED)) as (e' & He' & Hst);
    [reflexivity|set_solver|reflexivity|reflexivity|].
  vm_compute in He'. injection He' as <-. discriminate Hst.
Qed.

Lemma length_filter_flip (P Q : Z -> bool) (a : Z) (l : list Z) :
  NoDup l -> P a = true -> Q a = false ->
  (forall x, x <> a -> P x = Q x) ->
  length (filter (fun x => P x = true) l)
    = ((if decide (a ∈ l) then 1 else 0)
       + length (filter (fun x => Q x = true) l))%nat.
Proof.
  intros Hnd HP HQ Hother.
  induction Hnd as [|x l Hx Hnd IH]; [done|].
  rewrite !filter_cons. destruct (decide (x = a)) as [->|Hne].
  - rewrite HP, HQ.
    destruct (decide (true = true)); [|done].
    destruct (decide (false = true)); [done|].
    destruct (decide (a ∈ a :: l)) as [_|Hn]; [|exfalso; apply Hn; left].
    destruct (decide (a ∈ l)); [done|]. simpl. by rewrite IH.
  - rewrite (Hother x Hne).
    assert (Hmem : (if decide (a ∈ x :: l) then 1 else 0)%nat
                   = (if decide (a ∈ l) then 1 else 0)%nat).
    { destruct (decide (a ∈ l)) as [Hin|Hout].
      - rewrite decide_True; [done|by right].
      - rewrite decide_False; [done|]. rewrite not_elem_of_cons. by split. }
    rewrite Hmem. destruct (decide (Q x = true)); simpl; rewrite IH; lia.
Qed.

Lemma queue_step_not_queueable send_task now acc a :
  queueable (q_session acc) a = false -> queue_step send_task now acc a = acc.
Proof.
  unfold queueable, queue_step. destruct (q_session acc !! a) as [e|]; [|done].
  by intros ->.
Qed.

Lemma queue_step_queueable send_task now acc a :
  queueable (q_session acc) a = true ->
  queued_count (queue_step send_task now acc a) = queued_count acc + 1
  /\ queueable (q_session (queue_step send_task now acc a)) a = false
  /\ (forall x, x <> a ->
        queueable (q_session acc) x
        = queueable (q_session (queue_step send_task now acc a)) x).
Proof.
  unfold queueable, queue_step. destruct (q_session acc !! a) as [e|]; [|done].
  intros ->.
  destruct (dispatch_episode_processing send_task a _) as [[??]|?]; simpl;
    (split; [done|]; split; [by rewrite lookup_insert_eq|];
     intros x Hx; by rewrite lookup_insert_ne).
Qed.

Lemma queue_fold_counts_queueable send_task now episode_ids acc :
  queued_count (foldl (queue_step send_task now) acc episode_ids)
    = queued_count acc
      + Z.of_nat (length (queueable_ids (q_session acc) episode_ids)).
Proof.
  revert acc. unfold queueable_ids.
  induction episode_ids as [|a l IH]; intros acc; simpl; [lia|].
  rewrite IH. destruct (queueable (q_session acc) a) eqn:Ha.
  - destruct (queue_step_queueable send_task now acc a Ha) as (-> & Hoff & Hsame).
    pose proof (length_filter_flip (queueable (q_session acc))
                  (queueable (q_session (queue_step send_task now acc a)))
                  a (remove_dups l) (NoDup_remove_dups l) Ha Hoff Hsame) as Hflip.
    destruct (decide_rel elem_of a l) as [Hin|Hout].
    + rewrite decide_True in Hflip by by apply elem_of_remove_dups.
      rewrite Hflip. lia.
    + rewrite decide_False in Hflip by by rewrite elem_of_remove_dups.
      rewrite filter_cons_True by done. simpl length. rewrite Hflip. lia.
  - rewrite (queue_step_not_queueable send_task now acc a Ha).
    destruct (decide_rel elem_of a l) as [Hin|Hout]; [done|].
    rewrite filter_cons_False; [done|]. by rewrite Ha.
Qed.

(** C1, amended.  When the dispatch of a queueable episode of the request
    fails, the request still succeeds, the episode is committed as
    [QUEUED], and neither a message nor a task entry for it is added.  The
    count the request reports is the number of ids it names, each once,
    whose episode was [DISCOVERED] or [FAILED]: the episode is among them,
    so it is counted although it has no task. *)
Theorem queue_dispatch_failure_leaves_queued (send_task : Broker) (now : Z)
    (episode_ids : list Z) (w : World) (id : Z) (e : Episode.t) :
  episodes w !! id = Some e ->
  id ∈ episode_ids ->
  status_in (Episode.status e) [DISCOVERED; FAILED] = true ->
  is_ok (dispatch_episode_processing send_task id (Episode.audio_url e)) = false ->
  exists count tasks w',
    queue_episodes send_task now episode_ids w = (Ok (count, tasks), w')
    /\ episodes w' !! id = Some (queued now e)
    /\ Episode.status (queued now e) = QUEUED
    /\ (forall m, m ∈ channel w' -> wm_episode_id m = id -> m ∈ channel w)
    /\ (forall t, t ∈ tasks -> t.1 <> id)
    /\ count = Z.of_nat (length (queueable_ids (episodes w) episode_ids))
    /\ id ∈ queueable_ids (episodes w) episode_ids
    /\ NoDup (queueable_ids (episodes w) episode_ids).
Proof.
  intros Hrow Hin He Hdown. unfold queue_episodes.
  set (start := mkQueueLoop (episodes w) 0 [] (channel w)).
  destruct (queue_fold_stalled send_task now id e He Hdown start episode_ids start)
    as [(_ & Hch & Hts) Hq].
  { split; [by left|done]. }
  eexists _, _, _. split; [reflexivity|]. simpl.
  split; [apply Hq; by left|]. split; [done|]. split; [exact Hch|].
  split; [|split; [|split]].
  - intros t Ht Hid. specialize (Hts t Ht Hid). by apply elem_of_nil in Hts.
  - by rewrite (queue_fold_counts_queueable send_task now episode_ids start).
  - unfold queueable_ids. apply list_elem_of_filter.
    split; [|by apply elem_of_remove_dups]. unfold queueable. by rewrite Hrow.
  - unfold queueable_ids. apply NoDup_filter, NoDup_remove_dups.
Qed.

Lemma queue_dispatch_failure_leaves_queued_witness :
  exists count tasks w',
    queue_episodes broker_down 100 [1; 1; 5] (sample_world FAILED)
      = (Ok (count, tasks), w')
    /\ episodes w' !! 1 = Some (queued 100 (sample_episode FAILED))
    /\ Episode.status (queued 100 (sample_episode FAILED)) = QUEUED
    /\ (forall m, m ∈ channel w' -> wm_episode_id m = 1 ->
          m ∈ channel (sample_world FAILED))
    /\ (forall t, t ∈ tasks -> t.1 <> 1)
    /\ count = Z.of_nat (length (queueable_ids (episodes (sample_world FAILED))
                                   [1; 1; 5]))
    /\ 1 ∈ queueable_ids (episodes (sample_world FAILED)) [1; 1; 5]
    /\ NoDup (queueable_ids (episodes (sample_world FAILED)) [1; 1; 5]).
Proof.
  apply (queue_dispatch_failure_leaves_queued broker_down 100 [1; 1; 5]
           (sample_world FAILED) 1 (sample_episode FAILED)).
  - reflexivity.
  - left.
  - reflexivity.
  - reflexivity.
Defined.

(** With the broker down, a request naming the one [FAILED] episode twice
    and an unknown id reports a count of 1 and no task. *)
Example queue_counts_stranded_episode :
  (queue_episodes broker_down 100 [1; 1; 5] (sample_world FAILED)).1
    = Ok (1, []).
Proof. reflexivity. Qed.

(** ** Ignoring and restoring *)

Lemma world_eta w : with_episodes (episodes w) w = w.
Proof. by destruct w. Qed.

Lemma fold_raise {A B} (f : result A -> B -> result A) ex (l : list B) :
  (forall b, f (Raise ex) b = Raise ex) ->
  foldl f (Raise ex) l = Raise ex.
Proof. intros Hf. induction l as [|b l IH]; simpl; [done|by rewrite Hf]. Qed.

Lemma ignore_fold now episode_ids eps n :
  foldl (ignore_step now) (Ok (eps, n)) episode_ids = Ok (eps, n)
  \/ foldl (ignore_step now) (Ok (eps, n)) episode_ids
       = Raise (AttributeError "IGNORED").
Proof.
  induction episode_ids as [|a l IH]; simpl; [by left|].
  destruct (eps !! a) as [episode|]; [|exact IH].
  destruct (status_in (Episode.status episode) _); [|exact IH].
  right. by apply fold_raise.
Qed.

Lemma unignore_fold now episode_ids eps n :
  foldl (unignore_step now) (Ok (eps, n)) episode_ids = Ok (eps, n)
  \/ foldl (unignore_step now) (Ok (eps, n)) episode_ids
       = Raise (AttributeError "IGNORED").
Proof.
  induction episode_ids as [|a l IH]; simpl; [by left|].
  destruct (eps !! a) as [episode|]; [|exact IH].
  right. by apply fold_raise.
Qed.

Lemma ignore_episodes_world now episode_ids w :
  (ignore_episodes now episode_ids w).2 = w.
Proof.
  unfold ignore_episodes.
  destruct (ignore_fold now episode_ids (episodes w) 0) as [-> | ->]; simpl;
    [apply world_eta|done].
Qed.

Lemma unignore_episodes_world now episode_ids w :
  (unignore_episodes now episode_ids w).2 = w.
Proof.
  unfold unignore_episodes.
  destruct (unignore_fold now episode_ids (episodes w) 0) as [-> | ->]; simpl;
    [apply world_eta|done].
Qed.

Lemma ignore_fold_skip now episode_ids eps n :
  (forall id e, id ∈ episode_ids -> eps !! id = Some e ->
     status_in (Episode.status e) [DISCOVERED; FAILED] = false) ->
  foldl (ignore_step now) (Ok (eps, n)) episode_ids = Ok (eps, n).
Proof.
  induction episode_ids as [|a l IH]; intros Hall; simpl; [done|].
  destruct (eps !! a) as [e|] eqn:He.
  - rewrite (Hall a e ltac:(left) He). apply IH.
    intros id e' Hin. apply Hall. by right.
  - apply IH. intros id e' Hin. apply Hall. by right.
Qed.

Lemma unignore_fold_skip now episode_ids eps n :
  (forall id, id ∈ episode_ids -> eps !! id = None) ->
  foldl (unignore_step now) (Ok (eps, n)) episode_ids = Ok (eps, n).
Proof.
  induction episode_ids as [|a l IH]; intros Hall; simpl; [done|].
  rewrite (Hall a ltac:(left)). apply IH. intros id Hin. apply Hall. by right.
Qed.

(** The attribute [ignore_episodes] assigns does not exist: as soon as the
    loop meets a row it would ignore, the request ends in an
    [AttributeError]. *)
Lemma ignore_episodes_raises now episode_ids w id e :
  id ∈ episode_ids -> episodes w !! id = Some e ->
  status_in (Episode.status e) [DISCOVERED; FAILED] = true ->
  ignore_episodes now episode_ids w = (Raise (AttributeError "IGNORED"), w).
Proof.
  intros Hin Hrow He. unfold ignore_episodes.
  cut (foldl (ignore_step now) (Ok (episodes w, 0)) episode_ids
         = Raise (AttributeError "IGNORED")); [by intros ->|].
  generalize 0. induction episode_ids as [|a l IH]; intros n; simpl.
  - by apply elem_of_nil in Hin.
  - destruct (decide (a = id)) as [->|Hne].
    + rewrite Hrow, He. by apply fold_raise.
    + apply elem_of_cons in Hin as [Heq|Hin]; [congruence|].
      destruct (episodes w !! a) as [episode|]; [|by apply IH].
      destruct (status_in (Episode.status episode) _); [|by apply IH].
      by apply fold_raise.
Qed.

(** C2, the code at the failing input.  Ignoring the one episode of the
    store, [DISCOVERED] or [FAILED], ends in an [AttributeError] and leaves
    the store as it was; so does restoring it, whatever its status. *)
Theorem ignore_unignore_raise_attribute_error :
  ignore_episodes 100 [1] (sample_world DISCOVERED)
    = (Raise (AttributeError "IGNORED"), sample_world DISCOVERED)
  /\ ignore_episodes 100 [1] (sample_world FAILED)
    = (Raise (AttributeError "IGNORED"), sample_world FAILED)
  /\ unignore_episodes 100 [1] (sample_world DISCOVERED)
    = (Raise (AttributeError "IGNORED"), sample_world DISCOVERED)
  /\ EpisodeStatus_getattr "IGNORED" = Raise (AttributeError "IGNORED").
Proof. repeat split; reflexivity. Qed.

(** ** The completion callback *)

Lemma broadcast_returns send_json message w :
  exists s log, broadcast send_json message w = (Ok tt, with_connections s log w).
Proof.
  unfold broadcast.
  destruct (foldl _ _ _) as [disconnected log]. by eexists _, _.
Qed.

Lemma broadcast_delivers send_json message w :
  broadcast send_json message w =
    (Ok tt,
     with_connections
       (filter (accepts send_json message) (active_connections w))
       (delivered w ++ ((fun c => (c, message))
                          <$> filter (accepts send_json message)
                                (elements (active_connections w)))) w).
Proof.
  unfold broadcast. rewrite broadcast_fold. f_equal. f_equal.
  apply set_eq. intros c.
  rewrite elem_of_difference, elem_of_filter, elem_of_union,
    elem_of_list_to_set, elem_of_reverse, list_elem_of_filter, elem_of_elements.
  destruct (decide (accepts send_json message c)); set_solver.
Qed.

Lemma endswith_mp3_truthy name :
  endswith name ".mp3" = true -> truthy (Some name) = true.
Proof. by destruct name. Qed.

Lemma mp3_name_spec file :
  mp3_name file = true <->
  exists name, filename file = Some name /\ endswith name ".mp3" = true.
Proof.
  unfold mp3_name. destruct (filename file) as [name|]; simpl.
  - rewrite andb_true_iff. split.
    + intros [_ H]. by exists name.
    + intros (? & [= <-] & H). split; [|done].
      by apply (endswith_mp3_truthy name).
  - split; [done|]. by intros (? & ? & _).
Qed.

Lemma upload_rejected_name send_json now env id file w e :
  episodes w !! id = Some e -> mp3_name file = false ->
  upload_cleaned_audio send_json now env id file w
    = (Raise (HTTPException 400 "Only MP3 files are accepted"), w).
Proof.
  intros Hrow Hname. unfold upload_cleaned_audio. rewrite Hrow.
  unfold mp3_name in Hname. apply andb_false_iff in Hname.
  destruct Hname as [-> | ->]; simpl; [done|by rewrite orb_true_r].
Qed.

Lemma upload_stored send_json now env id file w e name :
  episodes w !! id = Some e ->
  filename file = Some name -> endswith name ".mp3" = true ->
  mkdir_ok env = true -> write env = Written ->
  exists s log,
    upload_cleaned_audio send_json now env id file w =
      (Ok ("File uploaded successfully", id, Some (artifact_path id e name)),
       with_connections s log
         (with_episodes (<[id := cleaned now (artifact_path id e name) e]> (episodes w))
            (with_disk (<[artifact_path id e name := content file]> (disk w)) w))).
Proof.
  intros Hrow Hfile Hname Hdir Hwrite. unfold upload_cleaned_audio.
  rewrite Hrow, Hfile, Hdir, Hwrite. simpl default.
  rewrite (endswith_mp3_truthy name Hname), Hname. simpl negb. simpl orb. cbv iota.
  fold (artifact_path id e name). fold (cleaned now (artifact_path id e name) e).
  match goal with |- context [broadcast send_json ?m ?w0] =>
    destruct (broadcast_returns send_json m w0) as (s & log & ->) end.
  by exists s, log.
Qed.






(** An ignore request for the one episode of the store, which is
    [CLEANED], is answered with a count of 0; so is a queue request. *)
Example ineligible_episode_is_passed_over :
  ignore_episodes 100 [1; 9] (sample_world CLEANED)
    = (Ok 0, sample_world CLEANED)
  /\ queue_episodes broker_up 100 [1; 9] (sample_world CLEANED)
    = (Ok (0, []), sample_world CLEANED).
Proof. split; reflexivity. Qed.

Lemma cleaned_again now1 now2 path e :
  cleaned now2 path (cleaned now1 path e) = cleaned now2 path e.
Proof. reflexivity. Qed.

Lemma artifact_path_cleaned id now path e name :
  artifact_path id (cleaned now path e) name = artifact_path id e name.
Proof. reflexivity. Qed.

Lemma upload_stored_exact send_json now env id file w e name :
  episodes w !! id = Some e ->
  filename file = Some name -> endswith name ".mp3" = true ->
  mkdir_ok env = true -> write env = Written ->
  let completed := mkProgress id 100 "completed" in
  upload_cleaned_audio send_json now env id file w =
    (Ok ("File uploaded successfully", id, Some (artifact_path id e name)),
     with_connections
       (filter (accepts send_json completed) (active_connections w))
       (delivered w ++ ((fun c => (c, completed))
                          <$> filter (accepts send_json completed)
                                (elements (active_connections w))))
       (with_episodes (<[id := cleaned now (artifact_path id e name) e]> (episodes w))
          (with_disk (<[artifact_path id e name := content file]> (disk w)) w))).
Proof.
  intros Hrow Hfile Hname Hdir Hwrite completed. unfold upload_cleaned_audio.
  rewrite Hrow, Hfile, Hdir, Hwrite. simpl default.
  rewrite (endswith_mp3_truthy name Hname), Hname. simpl negb. simpl orb. cbv iota.
  fold (artifact_path id e name). fold (cleaned now (artifact_path id e name) e).
  by rewrite broadcast_delivers.
Qed.

(** C5, counterexample.  The episode is [QUEUED] and one observer is
    connected; the same upload is delivered at time 100 and again at time
    200.  The second delivery changes the stored row ([updated_at] goes
    from 100 to 200, and with it the date of the published item) and the
    observer gets the ["completed"] event a second time. *)
Lemma duplicate_callback_changes_the_store :
  let first :=
    upload_cleaned_audio socket_up 100 disk_ok 1 sample_upload (sample_world QUEUED) in
  let second := upload_cleaned_audio socket_up 200 disk_ok 1 sample_upload first.2 in
  ~ second_delivery_is_noop socket_up 100 200 disk_ok 1 sample_upload
      (sample_world QUEUED)
  /\ episodes second.2 <> episodes first.2
  /\ Episode.updated_at <$> episodes first.2 !! 1 = Some 100
  /\ Episode.updated_at <$> episodes second.2 !! 1 = Some 200
  /\ get_feed_rss 300 1 second.2 <> get_feed_rss 300 1 first.2
  /\ delivered first.2 = [(7%nat, mkProgress 1 100 "completed")]
  /\ delivered second.2 = [(7%nat, mkProgress 1 100 "completed");
                          (7%nat, mkProgress 1 100 "completed")].
Proof.
  intros first second.
  assert (Hdiff : episodes second.2 <> episodes first.2).
  { intros Heq. apply (f_equal (fun m => Episode.updated_at <$> m !! 1)) in Heq.
    vm_compute in Heq. discriminate Heq. }
  split; [by intros [Heq _]|]. split; [done|].
  split; [reflexivity|]. split; [reflexivity|].
  split; [|split; reflexivity].
  intros Heq. vm_compute in Heq. discriminate Heq.
Qed.

(** C5, amended.  The same accepted upload delivered twice, with the disk
    taking both writes: both deliveries succeed with the same answer, and
    after the second the episode is still [CLEANED] with the same artifact
    path, the file holds the same bytes, and the feeds, the work channel
    and every other episode are as the first delivery left them.  The
    second delivery is not without effect: it writes the row again with
    its own time as [updated_at], so the episode table differs whenever
    the two times differ, and every observer still subscribed is sent the
    ["completed"] event once more. *)
Theorem duplicate_callback_rewrites_the_row
    (send_json : WebSocket -> ProgressMessage -> result unit)
    (now1 now2 : Z) (env1 env2 : Storage) (id : Z) (file : UploadFile)
    (w : World) (e : Episode.t) :
  episodes w !! id = Some e ->
  mp3_name file = true ->
  mkdir_ok env1 = true -> write env1 = Written ->
  mkdir_ok env2 = true -> write env2 = Written ->
  let first := upload_cleaned_audio send_json now1 env1 id file w in
  let second := upload_cleaned_audio send_json now2 env2 id file first.2 in
  let completed := mkProgress id 100 "completed" in
  exists path e1 sent,
    first.1 = Ok ("File uploaded successfully", id, Some path)
    /\ second.1 = first.1
    /\ episodes first.2 !! id = Some e1
    /\ Episode.status e1 = CLEANED /\ Episode.local_filename e1 = Some path
    /\ Episode.updated_at e1 = now1
    /\ episodes second.2 = <[id := Episode.set_updated_at now2 e1]> (episodes first.2)
    /\ (now1 <> now2 -> episodes second.2 <> episodes first.2)
    /\ disk second.2 = disk first.2
    /\ disk second.2 !! path = Some (content file)
    /\ feeds second.2 = feeds first.2
    /\ channel second.2 = channel first.2
    /\ delivered second.2 = delivered first.2 ++ sent
    /\ (forall c m, (c, m) ∈ sent <->
          m = completed /\ c ∈ active_connections first.2)
    /\ NoDup sent.
Proof.
  intros Hrow Hname Hd1 Hw1 Hd2 Hw2 first second completed.
  subst first second.
  apply mp3_name_spec in Hname as (name & Hfile & Hname).
  rewrite (upload_stored_exact send_json now1 env1 id file w e name) by done.
  cbn [fst snd].
  set (path := artifact_path id e name).
  set (w1 := with_connections _ _ _).
  assert (Hrow1 : episodes w1 !! id = Some (cleaned now1 path e))
    by apply lookup_insert_eq.
  rewrite (upload_stored_exact send_json now2 env2 id file w1 _ name Hrow1)
    by done.
  cbn [fst snd].
  rewrite artifact_path_cleaned. fold path. rewrite cleaned_again.
  fold completed.
  exists path, (cleaned now1 path e),
    ((fun c => (c, completed))
       <$> filter (accepts send_json completed) (elements (active_connections w1))).
  split; [done|]. split; [done|]. split; [done|]. split; [done|].
  split; [done|]. split; [done|]. split; [done|]. split.
  { intros Hne Heq. apply (f_equal (fun m => Episode.updated_at <$> m !! id)) in Heq.
    cbn [episodes with_connections with_episodes] in Heq.
    rewrite lookup_insert_eq, Hrow1 in Heq. simpl in Heq. congruence. }
  split; [simpl; by rewrite insert_insert_eq|].
  split; [simpl; apply lookup_insert_eq|].
  split; [done|]. split; [done|]. split; [done|]. split.
  - intros c m. rewrite list_elem_of_fmap. split.
    + intros (c' & [= -> ->] & Hin).
      apply list_elem_of_filter in Hin as [_ Hin%elem_of_elements]. done.
    + intros [-> Hin]. exists c. split; [done|].
      apply list_elem_of_filter. split; [|by apply elem_of_elements].
      subst w1. cbn [active_connections with_connections] in Hin.
      by apply elem_of_filter in Hin as [Hok _].
  - apply NoDup_fmap_2; [by intros ?? [=]|].
    apply NoDup_filter, NoDup_elements.
Qed.

Lemma duplicate_callback_rewrites_the_row_witness :
  let first :=
    upload_cleaned_audio socket_up 100 disk_ok 1 sample_upload (sample_world QUEUED) in
  let second := upload_cleaned_audio socket_up 200 disk_ok 1 sample_upload first.2 in
  let completed := mkProgress 1 100 "completed" in
  exists path e1 sent,
    first.1 = Ok ("File uploaded successfully", 1, Some path)
    /\ second.1 = first.1
    /\ episodes first.2 !! 1 = Some e1
    /\ Episode.status e1 = CLEANED /\ Episode.local_filename e1 = Some path
    /\ Episode.updated_at e1 = 100
    /\ episodes second.2 = <[1 := Episode.set_updated_at 200 e1]> (episodes first.2)
    /\ (100 <> 200 -> episodes second.2 <> episodes first.2)
    /\ disk second.2 = disk first.2
    /\ disk second.2 !! path = Some (content sample_upload)
    /\ feeds second.2 = feeds first.2
    /\ channel second.2 = channel first.2
    /\ delivered second.2 = delivered first.2 ++ sent
    /\ (forall c m, (c, m) ∈ sent <->
          m = completed /\ c ∈ active_connections first.2)
    /\ NoDup sent.
Proof.
  apply (duplicate_callback_rewrites_the_row socket_up 100 200 disk_ok disk_ok 1
           sample_upload (sample_world QUEUED) (sample_episode QUEUED));
    reflexivity.
Defined.

(** C6, counterexample.  An upload declared as [text/plain] whose name ends
    in [.mp3] is accepted and the episode becomes [CLEANED]. *)
Lemma upload_accepts_text_plain :
  ~ accepts_only_audio_mpeg socket_up 100 disk_ok 1 text_upload (sample_world QUEUED)
  /\ (upload_cleaned_audio socket_up 100 disk_ok 1 text_upload (sample_world QUEUED)).1
       = Ok ("File uploaded successfully", 1, Some "1/1_notes.mp3").
Proof.
  split; [|reflexivity].
  intros H. specialize (H eq_refl). discriminate H.
Qed.

(** C6, amended.  For an existing episode the callback decides on the
    name alone: a name that is missing, empty or does not end in [.mp3] is
    refused with status 400 and nothing changes; with such a name, and the
    disk taking the write, the upload is accepted; the declared media type
    plays no part in the outcome. *)
Theorem upload_accepted_by_name_only
    (send_json : WebSocket -> ProgressMessage -> result unit)
    (now : Z) (env : Storage) (id : Z) (file : UploadFile) (w : World)
    (e : Episode.t) :
  episodes w !! id = Some e ->
  (mp3_name file = false ->
     upload_cleaned_audio send_json now env id file w
       = (Raise (HTTPException 400 "Only MP3 files are accepted"), w))
  /\ (mp3_name file = true -> mkdir_ok env = true -> write env = Written ->
      is_ok (upload_cleaned_audio send_json now env id file w).1 = true)
  /\ (forall media_type,
        upload_cleaned_audio send_json now env id
          (mkUpload (filename file) media_type (content file)) w
        = upload_cleaned_audio send_json now env id file w).
Proof.
  intros Hrow. split; [|split].
  - intros Hname. by apply (upload_rejected_name send_json now env id file w e).
  - intros Hname Hdir Hwrite.
    apply mp3_name_spec in Hname as (name & Hfile & Hname).
    by destruct (upload_stored send_json now env id file w e name)
      as (s & log & ->).
  - intros media_type. reflexivity.
Qed.

Lemma upload_accepted_by_name_only_witness :
  (mp3_name text_upload = false ->
     upload_cleaned_audio socket_up 100 disk_ok 1 text_upload (sample_world QUEUED)
       = (Raise (HTTPException 400 "Only MP3 files are accepted"), sample_world QUEUED))
  /\ (mp3_name text_upload = true -> mkdir_ok disk_ok = true -> write disk_ok = Written ->
      is_ok (upload_cleaned_audio socket_up 100 disk_ok 1 text_upload
               (sample_world QUEUED)).1 = true)
  /\ (forall media_type,
        upload_cleaned_audio socket_up 100 disk_ok 1
          (mkUpload (filename text_upload) media_type (content text_upload))
          (sample_world QUEUED)
        = upload_cleaned_audio socket_up 100 disk_ok 1 text_upload (sample_world QUEUED)).
Proof.
  apply (upload_accepted_by_name_only socket_up 100 disk_ok 1 text_upload
           (sample_world QUEUED) (sample_episode QUEUED)).
  reflexivity.
Defined.

(** ** The artifact invariant *)

Lemma artifact_iff_cleaned_insert eps id e :
  artifact_iff_cleaned eps ->
  (Episode.local_filename e <> None <-> Episode.status e = CLEANED) ->
  artifact_iff_cleaned (<[id := e]> eps).
Proof.
  intros Hinv He id' e'. rewrite lookup_insert.
  case_decide; [by intros [= <-]|apply Hinv].
Qed.

Lemma artifact_iff_cleaned_ingest_item now feed_id acc item :
  artifact_iff_cleaned acc.1 ->
  artifact_iff_cleaned (ingest_item now feed_id acc item).1.
Proof.
  destruct acc as [eps created]. simpl. intros Hinv.
  destruct (select _ eps); simpl; [|done].
  apply artifact_iff_cleaned_insert; [done|]. simpl. split; [done|discriminate].
Qed.

Lemma artifact_iff_cleaned_ingest_fold now feed_id items acc :
  artifact_iff_cleaned acc.1 ->
  artifact_iff_cleaned (foldl (ingest_item now feed_id) acc items).1.
Proof.
  revert acc. induction items as [|item items IH]; intros acc Hinv; [done|].
  apply (IH (ingest_item now feed_id acc item)).
  by apply artifact_iff_cleaned_ingest_item.
Qed.

Lemma artifact_iff_cleaned_ingest now document feed_id eps r :
  artifact_iff_cleaned eps ->
  ingest_feed now document feed_id eps = Ok r ->
  artifact_iff_cleaned r.1.
Proof.
  intros Hinv. unfold ingest_feed. destruct document as [items|ex]; [|done].
  simpl. intros [= <-].
  by apply (artifact_iff_cleaned_ingest_fold now feed_id items (eps, [])).
Qed.

Lemma lookup_fold_delete {A} (rows : list (Z * A)) (m : gmap Z A) k x :
  foldl (fun m r => delete r.1 m) m rows !! k = Some x -> m !! k = Some x.
Proof.
  revert m. induction rows as [|r rows IH]; intros m; simpl; [done|].
  intros H. apply IH in H. by apply lookup_delete_Some in H as [_ H].
Qed.

Lemma artifact_iff_cleaned_queue_step send_task now acc a :
  artifact_iff_cleaned (q_session acc) ->
  artifact_iff_cleaned (q_session (queue_step send_task now acc a)).
Proof.
  intros Hinv. unfold queue_step.
  destruct (q_session acc !! a) as [episode|] eqn:Ha; [|done].
  destruct (status_in (Episode.status episode) _) eqn:Hst; [|done].
  assert (Hrow : artifact_iff_cleaned
            (<[a := Episode.set_updated_at now (Episode.set_status QUEUED episode)]>
               (q_session acc))).
  { apply artifact_iff_cleaned_insert; [done|]. simpl.
    split; [|discriminate]. intros Hpath. apply (Hinv _ _ Ha) in Hpath.
    rewrite Hpath in Hst. discriminate Hst. }
  by destruct (dispatch_episode_processing send_task a _) as [[??]|?].
Qed.

Lemma artifact_iff_cleaned_queue send_task now episode_ids w :
  artifact_iff_cleaned (episodes w) ->
  artifact_iff_cleaned (episodes (queue_episodes send_task now episode_ids w).2).
Proof.
  unfold queue_episodes. simpl. intros Hinv.
  set (acc := mkQueueLoop (episodes w) 0 [] (channel w)).
  assert (Hacc : artifact_iff_cleaned (q_session acc)) by exact Hinv.
  clearbody acc. revert acc Hacc.
  induction episode_ids as [|a l IH]; intros acc Hacc; simpl; [done|].
  apply IH. by apply artifact_iff_cleaned_queue_step.
Qed.

Lemma artifact_iff_cleaned_upload send_json now env id file w :
  artifact_iff_cleaned (episodes w) ->
  artifact_iff_cleaned
    (episodes (upload_cleaned_audio send_json now env id file w).2).
Proof.
  intros Hinv. unfold upload_cleaned_audio.
  destruct (episodes w !! id) as [e|]; [|done].
  destruct (_ || _); [done|].
  destruct (negb (mkdir_ok env)); [done|].
  destruct (write env) as [|[bytes|]]; [|done|done].
  match goal with |- context [broadcast send_json ?m ?w0] =>
    destruct (broadcast_returns send_json m w0) as (s & log & ->) end.
  simpl. by apply artifact_iff_cleaned_insert.
Qed.

Lemma artifact_iff_cleaned_step send_json send_task w w' :
  artifact_iff_cleaned (episodes w) -> step send_json send_task w w' ->
  artifact_iff_cleaned (episodes w').
Proof.
  intros Hinv Hstep. destruct Hstep.
  - unfold create_feed. destruct (select _ (feeds w)); [|done].
    destruct metadata as [md|]; [|done].
    match goal with |- context [ingest_feed ?n ?d ?f ?m] =>
      destruct (ingest_feed n d f m) as [[eps created]|ex] eqn:Hing end; [|done].
    by apply (artifact_iff_cleaned_ingest _ _ _ _ _ Hinv Hing).
  - unfold trigger_ingest. destruct (feeds w !! feed_id); [|done].
    destruct (ingest_feed _ _ _ _) as [[eps created]|ex] eqn:Hing; [|done].
    by apply (artifact_iff_cleaned_ingest _ _ _ _ _ Hinv Hing).
  - unfold delete_feed. destruct (feeds w !! feed_id); [|done].
    simpl. intros id e Hrow. apply lookup_fold_delete in Hrow.
    by apply (Hinv id e).
  - by apply artifact_iff_cleaned_queue.
  - by rewrite ignore_episodes_world.
  - by rewrite unignore_episodes_world.
  - by apply artifact_iff_cleaned_upload.
  - unfold update_progress.
    destruct (broadcast_returns send_json
                (mkProgress episode_id progress stage) w) as (s & log & ->).
    done.
  - done.
  - done.
Qed.

(** C4.  In the empty store, and after any sequence of requests (feed
    creation with its ingestion pass, ingestion, queue, ignore, un-ignore,
    completion callback, feed deletion, progress reports, observers coming
    and going), every episode row has an artifact path exactly when its
    status is [CLEANED]; each single request preserves this. *)
Theorem artifact_path_iff_cleaned
    (send_json : WebSocket -> ProgressMessage -> result unit)
    (send_task : Broker) :
  artifact_iff_cleaned (episodes empty_world)
  /\ (forall w w', artifact_iff_cleaned (episodes w) ->
        step send_json send_task w w' -> artifact_iff_cleaned (episodes w'))
  /\ (forall w, reachable send_json send_task w ->
        forall id e, episodes w !! id = Some e ->
          (Episode.local_filename e <> None <-> Episode.status e = CLEANED)).
Proof.
  assert (Hinit : artifact_iff_cleaned (episodes empty_world)).
  { intros id e Hrow. simpl in Hrow. by rewrite lookup_empty in Hrow. }
  split; [done|]. split; [apply artifact_iff_cleaned_step|].
  induction 1 as [|w w' _ IH Hstep]; [exact Hinit|].
  by apply (artifact_iff_cleaned_step send_json send_task w w').
Qed.

(** ** The published feed *)

#[global] Instance newer_first_total : Total newer_first.
Proof. intros a b. unfold newer_first. lia. Qed.

#[global] Instance newer_first_trans : Transitive newer_first.
Proof. intros a b c. unfold newer_first. lia. Qed.

Lemma StronglySorted_filter {A} (R : relation A) (P : A -> Prop)
    `{!forall x, Decision (P x)} (l : list A) :
  StronglySorted R l -> StronglySorted R (filter P l).
Proof.
  induction 1 as [|x l Hl IH Hx]; [constructor|].
  rewrite filter_cons. case_decide; [|done].
  constructor; [done|].
  apply Forall_forall. intros y Hy%list_elem_of_filter.
  rewrite Forall_forall in Hx. apply Hx. tauto.
Qed.

Lemma published_rows_perm feed_id w :
  published_rows feed_id w
    ≡ₚ filter (publishable feed_id) (map_to_list (episodes w)).
Proof.
  unfold published_rows, select. rewrite merge_sort_Permutation.
  rewrite list_filter_filter. erewrite list_filter_iff; [reflexivity|].
  intros [id e]. unfold publishable. simpl.
  rewrite andb_true_iff, !bool_decide_eq_true. tauto.
Qed.

Lemma published_rows_sorted feed_id w :
  StronglySorted newer_first (published_rows feed_id w).
Proof.
  unfold published_rows. apply StronglySorted_filter.
  apply StronglySorted_merge_sort; apply _.
Qed.

Lemma truthy_path o :
  truthy o = true -> exists path, o = Some path /\ path <> "".
Proof.
  destruct o as [path|]; [|done]. simpl. intros H. exists path. split; [done|].
  intros ->. done.
Qed.

(** C8.  For a feed that does not exist the request fails with status 404.
    For a feed that exists the document's items are made, one each and in
    this order, from a list of rows that is a rearrangement of exactly the
    stored rows of that feed that are [CLEANED] and have their artifact
    path set; the list runs from the newest [created_at] to the oldest; the
    item of a row has the URL built from the row's artifact path as its
    enclosure.  A [CLEANED] row without a path is not in the list. *)
Theorem published_feed_contents (now feed_id : Z) (w : World) :
  (feeds w !! feed_id = None ->
     get_feed_rss now feed_id w
       = Raise (HTTPException 404 ("Feed " +:+ str feed_id +:+ " not found")))
  /\ (forall feed, feeds w !! feed_id = Some feed ->
      exists channel rows,
        get_feed_rss now feed_id w = Ok channel
        /\ ch_items channel = (fun r => rss_item r.2) <$> rows
        /\ rows ≡ₚ filter (publishable feed_id) (map_to_list (episodes w))
        /\ (forall id e, (id, e) ∈ rows <->
              episodes w !! id = Some e /\ Episode.feed_id e = feed_id
              /\ Episode.status e = CLEANED
              /\ truthy (Episode.local_filename e) = true)
        /\ NoDup rows
        /\ StronglySorted newer_first rows
        /\ Forall (fun r => exists path,
                     Episode.local_filename r.2 = Some path
                     /\ enclosure_url (rss_item r.2)
                        = "https://" +:+ PUBLIC_HOSTNAME +:+ "/files/" +:+ path
                     /\ enclosure_type (rss_item r.2) = "audio/mpeg") rows
        /\ (forall id e, episodes w !! id = Some e ->
              Episode.local_filename e = None -> (id, e) ∉ rows)).
Proof.
  split.
  - intros Hfeed. unfold get_feed_rss. by rewrite Hfeed.
  - intros feed Hfeed. unfold get_feed_rss. rewrite Hfeed.
    pose proof (published_rows_perm feed_id w) as Hperm.
    assert (Hmem : forall id e, (id, e) ∈ published_rows feed_id w <->
              episodes w !! id = Some e /\ Episode.feed_id e = feed_id
              /\ Episode.status e = CLEANED
              /\ truthy (Episode.local_filename e) = true).
    { intros id e. rewrite Hperm, list_elem_of_filter, elem_of_map_to_list.
      unfold publishable. simpl. tauto. }
    eexists _, (published_rows feed_id w). split; [reflexivity|].
    split; [done|]. split; [done|]. split; [done|]. split; [|split; [|split]].
    + rewrite Hperm. apply NoDup_filter, NoDup_map_to_list.
    + apply published_rows_sorted.
    + apply Forall_forall. intros [id e] Hin.
      apply Hmem in Hin as (_ & _ & _ & Hpath).
      apply truthy_path in Hpath as (path & Hpath & _).
      exists path. simpl. by rewrite Hpath.
    + intros id e _ Hnone Hin. apply Hmem in Hin as (_ & _ & _ & Hpath).
      by rewrite Hnone in Hpath.
Qed.

(** ** Feed creation *)

(** C10.  When no feed has the URL yet, metadata extraction succeeded and
    the ingestion pass raises, the request still answers with the new
    feed: its row is committed under a key that was free, the episode
    table is left as it was, and, the store's foreign keys being sound, no
    episode belongs to the new feed. *)
Theorem create_feed_survives_ingest_failure (ingest_feed : Ingest) (now : Z)
    (md : Metadata) (rss_url : string) (w : World) :
  select (fun f => String.eqb (Feed.rss_url f) rss_url) (feeds w) = [] ->
  is_ok (ingest_feed (fresh (dom (feeds w))) (episodes w)) = false ->
  referential_integrity w ->
  exists feed w',
    create_feed ingest_feed now (Some md) rss_url w = (Ok feed, w')
    /\ Feed.rss_url feed = rss_url
    /\ Feed.title feed = md_title md +:+ " (Purified)"
    /\ feeds w !! Feed.id feed = None
    /\ feeds w' = <[Feed.id feed := feed]> (feeds w)
    /\ episodes w' = episodes w
    /\ (forall id e, episodes w' !! id = Some e ->
          Episode.feed_id e <> Feed.id feed).
Proof.
  intros Hnew Hraise Hfk. unfold create_feed. rewrite Hnew. simpl.
  destruct (ingest_feed _ _) as [r|ex]; [discriminate Hraise|].
  pose proof (is_fresh (dom (feeds w))) as Hfresh.
  eexists _, _. split; [reflexivity|]. simpl.
  repeat split; try done.
  - by apply not_elem_of_dom.
  - intros id e Hrow Heq. apply Hfk in Hrow. simpl in Hrow.
    by rewrite Heq in Hrow.
Qed.

Lemma create_feed_survives_ingest_failure_witness :
  exists feed w',
    create_feed (ingest_feed 100 (Raise FeedError)) 100 (Some sample_metadata)
      "http://example.com/other" (sample_world QUEUED) = (Ok feed, w')
    /\ Feed.rss_url feed = "http://example.com/other"
    /\ Feed.title feed = md_title sample_metadata +:+ " (Purified)"
    /\ feeds (sample_world QUEUED) !! Feed.id feed = None
    /\ feeds w' = <[Feed.id feed := feed]> (feeds (sample_world QUEUED))
    /\ episodes w' = episodes (sample_world QUEUED)
    /\ (forall id e, episodes w' !! id = Some e ->
          Episode.feed_id e <> Feed.id feed).
Proof.
  apply (create_feed_survives_ingest_failure (ingest_feed 100 (Raise FeedError))
           100 sample_metadata "http://example.com/other" (sample_world QUEUED)).
  - reflexivity.
  - reflexivity.
  - compute_done.
Defined.

(** ** The worker's retry policy *)

Lemma process_episode_spec n a :
  match (Worker.body a).2 with
  | None => (Worker.process_episode n a).2 = Worker.Success
  | Some Worker.RequestException =>
      (Worker.process_episode n a).2
        = Worker.retry n Worker.RequestException 60 3
      /\ last (Worker.process_episode n a).1 = Some (0, "failed")
  | Some Worker.OtherException =>
      (Worker.process_episode n a).2 = Worker.Failed Worker.OtherException
      /\ last (Worker.process_episode n a).1 = Some (0, "failed")
  end.
Proof.
  unfold Worker.process_episode.
  destruct (Worker.body a) as [reports [[]|]]; simpl; [| |done];
    by rewrite last_snoc.
Qed.

Lemma retry_spec n f :
  Worker.retry n f 60 3
    = if (n <? 3)%nat then Worker.Retry 60 else Worker.Failed f.
Proof.
  unfold Worker.retry.
  destruct (Nat.ltb_spec 3 (n + 1)), (Nat.ltb_spec n 3); (done || lia).
Qed.

Lemma run_task_mono env fuel n trace :
  Worker.run_task fuel env n = Some trace ->
  forall fuel', (fuel <= fuel')%nat -> Worker.run_task fuel' env n = Some trace.
Proof.
  revert n trace. induction fuel as [|fuel IH]; intros n trace; [done|].
  intros Hrun [|fuel'] Hle; [lia|]. simpl in *.
  destruct (Worker.process_episode n (env n)).2; try done.
  destruct (Worker.run_task fuel env (S n)) as [rest|] eqn:Hrest; [|done].
  rewrite (IH _ _ Hrest fuel') by lia. done.
Qed.

Lemma run_task_spec env fuel n :
  (4 <= n + fuel)%nat -> (1 <= fuel)%nat ->
  exists trace,
    Worker.run_task fuel env n = Some trace
    /\ (1 <= length trace <= Nat.max 1 (4 - n))%nat
    /\ (forall i execution, trace !! i = Some execution ->
          follows_policy env trace i (n + i) execution).
Proof.
  revert n. induction fuel as [|fuel IH]; intros n Hfuel Hone; [lia|].
  simpl. pose proof (process_episode_spec n (env n)) as Hspec.
  destruct (Worker.body (env n)).2 as [[]|] eqn:Hbody.
  - destruct Hspec as [Hout Hrep]. rewrite retry_spec in Hout.
    destruct (Nat.ltb_spec n 3) as [Hlt|Hge].
    + rewrite Hout.
      destruct (IH (S n)) as (rest & Hrest & Hlen & Hpol); [lia|lia|].
      rewrite Hrest. simpl. eexists. split; [reflexivity|].
      split; [simpl; lia|].
      intros [|i] execution Hi; simpl in Hi.
      * injection Hi as <-. rewrite Nat.add_0_r.
        split; [done|]. split; [done|]. rewrite Hbody.
        destruct (Nat.ltb_spec n 3); [|lia]. split; [done|].
        simpl. apply lookup_lt_is_Some. lia.
      * specialize (Hpol i execution Hi).
        replace (n + S i)%nat with (S n + i)%nat by lia.
        destruct Hpol as (Heq & Hrep' & Hcase). split; [done|]. split; [done|].
        exact Hcase.
    + rewrite Hout. eexists. split; [reflexivity|]. split; [simpl; lia|].
      intros [|i] execution Hi; simpl in Hi; [|done].
      injection Hi as <-. rewrite Nat.add_0_r.
      split; [done|]. split; [done|]. rewrite Hbody.
      destruct (Nat.ltb_spec n 3); [lia|]. done.
  - destruct Hspec as [Hout Hrep]. rewrite Hout.
    eexists. split; [reflexivity|]. split; [simpl; lia|].
    intros [|i] execution Hi; simpl in Hi; [|done].
    injection Hi as <-. rewrite Nat.add_0_r.
    split; [done|]. split; [done|]. by rewrite Hbody.
  - rewrite Hspec.
    eexists. split; [reflexivity|]. split; [simpl; lia|].
    intros [|i] execution Hi; simpl in Hi; [|done].
    injection Hi as <-. rewrite Nat.add_0_r.
    split; [done|]. split; [by rewrite Hspec|]. by rewrite Hbody.
Qed.

(** C7.  Whatever the environment does, the worker's handling of a task
    ends after at most four executions (with fuel 4 or more the run is the
    same list of executions).  An execution whose body ends in a
    network-class error is followed by a retry scheduled with a 60 second
    countdown as long as fewer than three retries have been made, and is
    the final failure otherwise; one that ends in any other error is the
    final failure at once; so retries sit at positions 0 to 2 only.  Every
    execution that does not succeed has the report of 0 and ["failed"] as
    its last report. *)
Theorem network_errors_retried_three_times (env : nat -> Worker.Attempt) :
  exists trace,
    (forall fuel, (4 <= fuel)%nat -> Worker.run_task fuel env 0 = Some trace)
    /\ (1 <= length trace <= 4)%nat
    /\ (forall i execution, trace !! i = Some execution ->
          follows_policy env trace i i execution)
    /\ (forall i execution, trace !! i = Some execution ->
          Worker.is_retry execution.2 = true ->
          (i < 3)%nat /\ execution.2 = Worker.Retry 60
          /\ (Worker.body (env i)).2 = Some Worker.RequestException).
Proof.
  destruct (run_task_spec env 4 0) as (trace & Hrun & Hlen & Hpol); [lia|lia|].
  exists trace. split; [|split; [|split]].
  - intros fuel Hfuel. by apply (run_task_mono env 4 0 trace Hrun).
  - simpl in Hlen. lia.
  - exact Hpol.
  - intros i execution Hi Hretry.
    destruct (Hpol i execution Hi) as (_ & _ & Hcase). simpl in Hcase.
    destruct (Worker.body (env i)).2 as [[]|].
    + destruct (Nat.ltb_spec i 3) as [Hlt|Hge].
      * destruct Hcase as [Hout _]. done.
      * destruct Hcase as [Hout _]. rewrite Hout in Hretry. done.
    + destruct Hcase as [Hout _]. rewrite Hout in Hretry. done.
    + destruct Hcase as [Hout _]. rewrite Hout in Hretry. done.
Qed.

(** With the network down for good the task runs four times: three
    retries, each after 60 seconds, then the failure. *)
Example network_down_run :
  Worker.run_task 4 network_down 0 =
    Some [([(10, "downloading"); (0, "failed")], Worker.Retry 60);
          ([(10, "downloading"); (0, "failed")], Worker.Retry 60);
          ([(10, "downloading"); (0, "failed")], Worker.Retry 60);
          ([(10, "downloading"); (0, "failed")],
           Worker.Failed Worker.RequestException)].
Proof. reflexivity. Qed.

(** A run of requests from the empty store that ends with a [CLEANED]
    episode: the feed is created with one item, the episode is queued and
    its cleaned audio is uploaded. *)
Example reachable_cleaned_episode :
  let w1 := (create_feed
               (ingest_feed 100
                  (Ok [mkItem "guid-a" "Episode A" "http://example.com/a.mp3"]))
               100 (Some sample_metadata) "http://example.com/rss" empty_world).2 in
  let w2 := (queue_episodes broker_up 200 [0] w1).2 in
  let w3 := (upload_cleaned_audio socket_up 300 disk_ok 0 sample_upload w2).2 in
  reachable socket_up broker_up w3
  /\ Episode.status <$> episodes w1 !! 0 = Some DISCOVERED
  /\ Episode.status <$> episodes w2 !! 0 = Some QUEUED
  /\ channel w2 = [mkWork 0 "http://example.com/a.mp3" "http://web:8000/upload/0"]
  /\ episodes w3 !! 0 =
       Some (Episode.mk 0 0 "guid-a" CLEANED "Episode A" "http://example.com/a.mp3"
               (Some "0/0_episode_1_cleaned.mp3") 100 300).
Proof.
  split; [|repeat split; reflexivity].
  repeat (eapply reachable_step; [|constructor]). apply reachable_init.
Qed.

(** * Further properties of the handlers *)

(** ** The queue request *)

Lemma with_channel_episodes_eta w :
  with_channel (channel w) (with_episodes (episodes w) w) = w.
Proof. by destruct w. Qed.

Lemma queue_step_other send_task now acc a id :
  a <> id ->
  q_session (queue_step send_task now acc a) !! id = q_session acc !! id.
Proof.
  intros Hne. unfold queue_step.
  destruct (q_session acc !! a) as [episode|]; [|done].
  destruct (status_in (Episode.status episode) _); [|done].
  destruct (dispatch_episode_processing send_task a _) as [[??]|?]; simpl;
    by rewrite lookup_insert_ne.
Qed.

Lemma queue_fold_other send_task now episode_ids acc id :
  id ∉ episode_ids ->
  q_session (foldl (queue_step send_task now) acc episode_ids) !! id
    = q_session acc !! id.
Proof.
  revert acc. induction episode_ids as [|a l IH]; intros acc Hin; simpl; [done|].
  apply not_elem_of_cons in Hin as [Hne Hin].
  rewrite IH by done. by apply queue_step_other.
Qed.

Lemma dispatch_log_step send_task now eps0 c0 acc a :
  dispatch_log send_task now eps0 c0 acc ->
  dispatch_log send_task now eps0 c0 (queue_step send_task now acc a).
Proof.
  intros ((msgs & Hch & Hmsgs) & Hnd & Htasks & Hrows & Hcount).
  unfold queue_step.
  destruct (q_session acc !! a) as [episode|] eqn:Ha;
    [|by split; [exists msgs|]].
  destruct (status_in (Episode.status episode) _) eqn:Hst;
    [|by split; [exists msgs|]].
  assert (Horig : eps0 !! a = Some episode).
  { destruct (Hrows a) as [Heq|(e & _ & _ & Hq)]; [congruence|].
    rewrite Hq in Ha. injection Ha as <-. discriminate Hst. }
  assert (Hfresh : forall t, (a, t) ∉ dispatched_tasks acc).
  { intros t Hin. destruct (Htasks a t Hin) as (e & _ & _ & _ & Hq).
    rewrite Hq in Ha. injection Ha as <-. discriminate Hst. }
  assert (Hrows' : forall id,
            <[a := queued now episode]> (q_session acc) !! id = eps0 !! id
            \/ exists e, eps0 !! id = Some e
                 /\ status_in (Episode.status e) [DISCOVERED; FAILED] = true
                 /\ <[a := queued now episode]> (q_session acc) !! id
                    = Some (queued now e)).
  { intros id. destruct (decide (a = id)) as [<-|Hne].
    - right. exists episode. by rewrite lookup_insert_eq.
    - rewrite lookup_insert_ne by done. apply Hrows. }
  fold (queued now episode). rewrite dispatch_message.
  change (work_message a (queued now episode)) with (work_message a episode).
  destruct (send_task (work_message a episode)) as [task_id|ex] eqn:Hsend; simpl.
  - split; [|split; [|split; [|split]]]; simpl.
    + exists (msgs ++ [work_message a episode]). split.
      * by rewrite Hch, app_assoc.
      * apply Forall2_app; [done|]. constructor; [|constructor].
        by exists episode.
    + rewrite fmap_app. simpl. apply NoDup_app. split; [done|]. split.
      * intros id Hin [->|[]%elem_of_nil]%elem_of_cons.
        apply list_elem_of_fmap in Hin as ([id' t] & -> & Hin). simpl in *.
        by apply (Hfresh t).
      * apply NoDup_singleton.
    + intros id t [Hin|Hin]%elem_of_app.
      * destruct (Htasks id t Hin) as (e & He & Hs & Hd & Hq).
        exists e. repeat split; try done.
        rewrite lookup_insert_ne; [done|]. intros <-. by apply (Hfresh t).
      * apply list_elem_of_singleton in Hin. injection Hin as -> ->.
        exists episode. repeat split; try done. apply lookup_insert_eq.
    + exact Hrows'.
    + rewrite length_app. simpl. lia.
  - split; [by exists msgs|]. split; [done|]. split; [|split]; simpl.
    + intros id t Hin. destruct (Htasks id t Hin) as (e & He & Hs & Hd & Hq).
      exists e. repeat split; try done.
      rewrite lookup_insert_ne; [done|]. intros <-. by apply (Hfresh t).
    + exact Hrows'.
    + lia.
Qed.

Lemma dispatch_log_fold send_task now eps0 c0 episode_ids acc :
  dispatch_log send_task now eps0 c0 acc ->
  dispatch_log send_task now eps0 c0
    (foldl (queue_step send_task now) acc episode_ids).
Proof.
  revert acc. induction episode_ids as [|a l IH]; intros acc Hacc; simpl; [done|].
  by apply IH, dispatch_log_step.
Qed.

Lemma dispatch_log_start send_task now w :
  dispatch_log send_task now (episodes w) (channel w)
    (mkQueueLoop (episodes w) 0 [] (channel w)).
Proof.
  split; [|split; [|split; [|split]]]; simpl.
  - exists []. split; [by rewrite app_nil_r|constructor].
  - constructor.
  - intros id t Hin. by apply elem_of_nil in Hin.
  - by left.
  - lia.
Qed.

(** X1.  A queue request answers without an error; the messages it puts on
    the channel are appended in the order of its task list, one message per
    task, each built from the stored audio URL of its episode; no episode
    gets two tasks, however often its id is repeated in the request; and
    every task belongs to an episode of the request that was [DISCOVERED]
    or [FAILED], whose dispatch went through and which is now [QUEUED]. *)
Theorem queue_dispatches_each_episode_once (send_task : Broker) (now : Z)
    (episode_ids : list Z) (w : World) :
  exists count tasks msgs w',
    queue_episodes send_task now episode_ids w = (Ok (count, tasks), w')
    /\ channel w' = channel w ++ msgs
    /\ Forall2 (fun m t => exists e, episodes w !! t.1 = Some e
                                     /\ m = work_message t.1 e) msgs tasks
    /\ NoDup tasks.*1
    /\ (forall id t, (id, t) ∈ tasks ->
          id ∈ episode_ids
          /\ exists e, episodes w !! id = Some e
               /\ Episode.status e ∈ [DISCOVERED; FAILED]
               /\ send_task (work_message id e) = Ok t
               /\ episodes w' !! id = Some (queued now e)).
Proof.
  unfold queue_episodes.
  pose proof (dispatch_log_fold send_task now (episodes w) (channel w)
                episode_ids _ (dispatch_log_start send_task now w))
    as ((msgs & Hch & Hmsgs) & Hnd & Htasks & _ & _).
  eexists _, _, msgs, _. split; [reflexivity|]. simpl.
  split; [done|]. split; [done|]. split; [done|].
  intros id t Hin. destruct (Htasks id t Hin) as (e & He & Hs & Hd & Hq).
  split.
  - destruct (decide (id ∈ episode_ids)) as [|Hout]; [done|].
    rewrite (queue_fold_other send_task now episode_ids _ id Hout) in Hq.
    simpl in Hq. rewrite He in Hq. injection Hq as Hq.
    rewrite Hq in Hs. discriminate Hs.
  - exists e. by rewrite <- status_in_spec.
Qed.

(** X2.  A queue request touches episode rows only: feeds, disk, observers
    and their deliveries stay as they were.  Each row is either left as it
    was or, for an episode named in the request that was [DISCOVERED] or
    [FAILED], rewritten with status [QUEUED] and the request's time as
    [updated_at]; no row is added and none is removed. *)
Theorem queue_changes_status_only (send_task : Broker) (now : Z)
    (episode_ids : list Z) (w : World) :
  let w' := (queue_episodes send_task now episode_ids w).2 in
  feeds w' = feeds w /\ disk w' = disk w
  /\ active_connections w' = active_connections w
  /\ delivered w' = delivered w
  /\ dom (episodes w') = dom (episodes w)
  /\ (forall id,
        episodes w' !! id = episodes w !! id
        \/ exists e, id ∈ episode_ids /\ episodes w !! id = Some e
             /\ Episode.status e ∈ [DISCOVERED; FAILED]
             /\ episodes w' !! id
                = Some (Episode.mk (Episode.id e) (Episode.feed_id e)
                          (Episode.guid e) QUEUED (Episode.title e)
                          (Episode.audio_url e) (Episode.local_filename e)
                          (Episode.created_at e) now)).
Proof.
  unfold queue_episodes. simpl.
  pose proof (dispatch_log_fold send_task now (episodes w) (channel w)
                episode_ids _ (dispatch_log_start send_task now w))
    as (_ & _ & _ & Hrows & _).
  assert (Hall : forall id,
            q_session (foldl (queue_step send_task now)
                         (mkQueueLoop (episodes w) 0 [] (channel w))
                         episode_ids) !! id = episodes w !! id
            \/ exists e, id ∈ episode_ids /\ episodes w !! id = Some e
                 /\ Episode.status e ∈ [DISCOVERED; FAILED]
                 /\ q_session (foldl (queue_step send_task now)
                         (mkQueueLoop (episodes w) 0 [] (channel w))
                         episode_ids) !! id = Some (queued now e)).
  { intros id. destruct (decide (id ∈ episode_ids)) as [Hin|Hout].
    - destruct (Hrows id) as [Heq|(e & He & Hs & Hq)]; [by left|].
      right. exists e. by rewrite <- status_in_spec.
    - left. by rewrite queue_fold_other. }
  repeat split; try done.
  apply set_eq. intros id. rewrite !elem_of_dom.
  destruct (Hall id) as [-> | (e & _ & He & _ & ->)]; [done|].
  rewrite He. split; eauto.
Qed.

Lemma queue_step_settled send_task now acc a id :
  settled (q_session acc) id ->
  settled (q_session (queue_step send_task now acc a)) id.
Proof.
  unfold settled. intros Hid.
  destruct (decide (a = id)) as [->|Hne];
    [|by rewrite queue_step_other].
  unfold queue_step. destruct (q_session acc !! id) as [e|] eqn:He.
  - by rewrite Hid, He.
  - by rewrite He.
Qed.

Lemma queue_step_settles send_task now acc a :
  settled (q_session (queue_step send_task now acc a)) a.
Proof.
  unfold settled, queue_step.
  destruct (q_session acc !! a) as [e|] eqn:He; [|by rewrite He].
  destruct (status_in (Episode.status e) _) eqn:Hs; [|by rewrite He].
  destruct (dispatch_episode_processing send_task a _) as [[??]|?]; simpl;
    by rewrite lookup_insert_eq.
Qed.

Lemma queue_fold_settles send_task now episode_ids acc id :
  id ∈ episode_ids \/ settled (q_session acc) id ->
  settled (q_session (foldl (queue_step send_task now) acc episode_ids)) id.
Proof.
  revert acc. induction episode_ids as [|a l IH]; intros acc; simpl.
  - intros [[]%elem_of_nil|H]. done.
  - intros [[->|Hin]%elem_of_cons|Hs]; apply IH.
    + right. apply queue_step_settles.
    + by left.
    + right. by apply queue_step_settled.
Qed.

Lemma queue_fold_noop send_task now episode_ids acc :
  (forall id, id ∈ episode_ids -> settled (q_session acc) id) ->
  foldl (queue_step send_task now) acc episode_ids = acc.
Proof.
  induction episode_ids as [|a l IH]; intros Hall; simpl; [done|].
  assert (Hstep : queue_step send_task now acc a = acc).
  { pose proof (Hall a ltac:(left)) as Ha. unfold settled in Ha.
    unfold queue_step. destruct (q_session acc !! a) as [e|]; [|done].
    by rewrite Ha. }
  rewrite Hstep. apply IH. intros id Hin. apply Hall. by right.
Qed.

(** X3.  Queueing is idempotent: after a queue request, a further request
    for any of the same ids, whatever the broker does then, changes nothing,
    dispatches nothing and answers with a count of 0 and no tasks.  Ids of
    episodes that do not exist are passed over without an error. *)
Theorem queue_again_is_noop (send_task send_task' : Broker) (now now' : Z)
    (episode_ids again : list Z) (w : World) :
  again ⊆ episode_ids ->
  let w' := (queue_episodes send_task now episode_ids w).2 in
  queue_episodes send_task' now' again w' = (Ok (0, []), w').
Proof.
  intros Hsub w'. unfold queue_episodes at 1.
  rewrite queue_fold_noop.
  - cbn [queued_count dispatched_tasks q_channel q_session].
    by rewrite (with_channel_episodes_eta w').
  - intros id Hin. simpl. subst w'. unfold queue_episodes. simpl.
    apply queue_fold_settles. left. by apply Hsub.
Qed.

Lemma queue_again_is_noop_witness :
  let w' := (queue_episodes broker_down 100 [1; 5; 1] (sample_world FAILED)).2 in
  queue_episodes broker_up 200 [5; 1] w' = (Ok (0, []), w').
Proof.
  apply (queue_again_is_noop broker_down broker_up 100 200 [1; 5; 1] [5; 1]
           (sample_world FAILED)).
  intros x Hx. vm_compute in Hx. set_solver.
Defined.

Lemma queue_fold_count send_task now episode_ids acc :
  let final := foldl (queue_step send_task now) acc episode_ids in
  queued_count acc <= queued_count final
    <= queued_count acc + Z.of_nat (length episode_ids).
Proof.
  revert acc. induction episode_ids as [|a l IH]; intros acc; simpl; [lia|].
  specialize (IH (queue_step send_task now acc a)). simpl in IH.
  assert (queued_count acc <= queued_count (queue_step send_task now acc a)
            <= queued_count acc + 1); [|lia].
  unfold queue_step. destruct (q_session acc !! a) as [e|]; [|lia].
  destruct (status_in (Episode.status e) _); [|lia].
  destruct (dispatch_episode_processing send_task a _) as [[??]|?]; simpl; lia.
Qed.

Lemma queue_fold_all_up send_task now episode_ids acc :
  (forall m, is_ok (send_task m) = true) ->
  queued_count acc = Z.of_nat (length (dispatched_tasks acc)) ->
  let final := foldl (queue_step send_task now) acc episode_ids in
  queued_count final = Z.of_nat (length (dispatched_tasks final)).
Proof.
  intros Hup. revert acc.
  induction episode_ids as [|a l IH]; intros acc Hacc; simpl; [done|].
  apply IH. unfold queue_step. destruct (q_session acc !! a) as [e|]; [|done].
  destruct (status_in (Episode.status e) _); [|done].
  rewrite dispatch_message. specialize (Hup (work_message a e)).
  change (work_message a (Episode.set_updated_at now (Episode.set_status QUEUED e)))
    with (work_message a e).
  destruct (send_task (work_message a e)); [|done]. simpl.
  rewrite length_app. simpl. lia.
Qed.

(** X4.  The count a queue request reports is the number of episodes it
    set to [QUEUED]: it is at least the number of tasks and at most the
    number of ids in the request, and when the broker takes every message
    the two numbers agree. *)
Theorem queue_counts (send_task : Broker) (now : Z) (episode_ids : list Z)
    (w : World) :
  exists count tasks w',
    queue_episodes send_task now episode_ids w = (Ok (count, tasks), w')
    /\ Z.of_nat (length tasks) <= count <= Z.of_nat (length episode_ids)
    /\ ((forall m, is_ok (send_task m) = true) ->
        count = Z.of_nat (length tasks)).
Proof.
  unfold queue_episodes. eexists _, _, _. split; [reflexivity|].
  pose proof (dispatch_log_fold send_task now (episodes w) (channel w)
                episode_ids _ (dispatch_log_start send_task now w))
    as (_ & _ & _ & _ & Hcount).
  pose proof (queue_fold_count send_task now episode_ids
                (mkQueueLoop (episodes w) 0 [] (channel w))) as Hbound.
  simpl in Hbound. split; [lia|].
  intros Hup. by apply queue_fold_all_up.
Qed.

(** ** Artifact paths *)

Lemma occurs_app c s1 s2 :
  occurs c (s1 +:+ s2) = occurs c s1 || occurs c s2.
Proof.
  induction s1 as [|a s1 IH]; simpl; [done|]. by rewrite IH, orb_assoc.
Qed.

Lemma occurs_replace a b s : a <> b -> occurs a (replace a b s) = false.
Proof.
  intros Hne. induction s as [|c s IH]; cbn [occurs replace]; [done|].
  rewrite IH, orb_false_r.
  destruct (Ascii.eqb_spec c a) as [->|Hc]; apply Ascii.eqb_neq; congruence.
Qed.

Lemma occurs_cons_true c a s :
  occurs c (String a s) = true -> a = c \/ occurs c s = true.
Proof.
  cbn [occurs]. intros [Hc|Hc]%orb_true_iff; [left|by right].
  by apply Ascii.eqb_eq.
Qed.

Lemma uint_digits c d :
  occurs c (NilEmpty.string_of_uint d) = true -> digit_or_minus c = true.
Proof.
  induction d; cbn [NilEmpty.string_of_uint]; [done|..];
    (intros [<-|Hc]%occurs_cons_true; [done|by apply IHd]).
Qed.

Lemma nilzero_digits c d :
  occurs c (NilZero.string_of_uint d) = true -> digit_or_minus c = true.
Proof.
  destruct d; try apply uint_digits.
  unfold NilZero.string_of_uint.
  by intros [<-|Hc]%occurs_cons_true.
Qed.

Lemma str_digits c n : occurs c (str n) = true -> digit_or_minus c = true.
Proof.
  unfold str. destruct n as [|p|p]; cbn [Z.to_int NilZero.string_of_int].
  - apply nilzero_digits.
  - apply nilzero_digits.
  - intros [<-|Hc]%occurs_cons_true; [done|by apply nilzero_digits in Hc].
Qed.

Lemma str_no c n : digit_or_minus c = false -> occurs c (str n) = false.
Proof.
  intros Hc. destruct (occurs c (str n)) eqn:Ho; [|done].
  apply str_digits in Ho. congruence.
Qed.

Lemma str_inj n m : str n = str m -> n = m.
Proof.
  unfold str. intros Heq.
  assert (Hint : forall z, NilZero.int_of_string
                             (NilZero.string_of_int (Z.to_int z))
                           = Some (Z.to_int z)).
  { intros z. apply NilZero.isi; destruct z as [|p|p]; simpl; try done;
      intros [= H]; by apply DecimalPos.Unsigned.to_uint_nonnil in H. }
  pose proof (Hint n) as Hn. rewrite Heq, Hint in Hn. injection Hn as Hn.
  by rewrite <- (DecimalZ.of_to n), <- (DecimalZ.of_to m), Hn.
Qed.

Lemma split_at_first c s1 t1 s2 t2 :
  occurs c s1 = false -> occurs c s2 = false ->
  s1 +:+ String c t1 = s2 +:+ String c t2 -> s1 = s2 /\ t1 = t2.
Proof.
  revert s2. induction s1 as [|a s1 IH]; intros [|b s2]; simpl.
  - by intros _ _ [= ->].
  - intros _ [Hb _]%orb_false_iff [= <- _]. by rewrite Ascii.eqb_refl in Hb.
  - intros [Ha _]%orb_false_iff _ [= -> _]. by rewrite Ascii.eqb_refl in Ha.
  - intros [_ H1]%orb_false_iff [_ H2]%orb_false_iff [= -> Heq].
    destruct (IH s2 H1 H2 Heq) as [-> ->]. done.
Qed.

Lemma artifact_path_inj id1 e1 name1 id2 e2 name2 :
  artifact_path id1 e1 name1 = artifact_path id2 e2 name2 ->
  Episode.feed_id e1 = Episode.feed_id e2 /\ id1 = id2
  /\ replace "/" "_" name1 = replace "/" "_" name2.
Proof.
  unfold artifact_path. intros Heq.
  apply (split_at_first "/") in Heq as [Hfeed Heq]; try by apply str_no.
  apply (split_at_first "_") in Heq as [Hid Hname]; try by apply str_no.
  apply str_inj in Hfeed. apply str_inj in Hid. done.
Qed.

Lemma upload_ok_inv send_json now env id file w r :
  (upload_cleaned_audio send_json now env id file w).1 = Ok r ->
  exists e name,
    episodes w !! id = Some e /\ filename file = Some name
    /\ endswith name ".mp3" = true
    /\ mkdir_ok env = true /\ write env = Written
    /\ r = ("File uploaded successfully", id, Some (artifact_path id e name)).
Proof.
  unfold upload_cleaned_audio.
  destruct (episodes w !! id) as [e|]; [|done].
  destruct (filename file) as [name|] eqn:Hfile; [|done]. simpl default.
  destruct (negb (truthy (Some name))); [done|]. simpl orb.
  destruct (endswith name ".mp3") eqn:Hname; [|done]. simpl negb.
  destruct (mkdir_ok env); [|done]. simpl negb.
  destruct (write env) as [|left]; [|done].
  fold (artifact_path id e name).
  match goal with |- context [broadcast send_json ?m ?w0] =>
    destruct (broadcast_returns send_json m w0) as (s & log & ->) end.
  simpl. intros [= <-]. by exists e, name.
Qed.

(** X5.  The artifact of an accepted upload is stored directly in the
    directory of the episode's feed: the path in the answer is the feed id,
    one separator and a file name in which every [/] of the uploaded name
    has been replaced, so that no uploaded name reaches outside that
    directory; the file at that path holds the uploaded bytes and the
    episode row carries the same path. *)
Theorem upload_stays_in_feed_directory
    (send_json : WebSocket -> ProgressMessage -> result unit) (now : Z)
    (env : Storage) (id : Z) (file : UploadFile) (w : World)
    (message : string) (path : string) :
  (upload_cleaned_audio send_json now env id file w).1
    = Ok (message, id, Some path) ->
  exists e leaf,
    episodes w !! id = Some e
    /\ path = str (Episode.feed_id e) +:+ "/" +:+ leaf
    /\ occurs "/" leaf = false
    /\ occurs "/" (str (Episode.feed_id e)) = false
    /\ disk (upload_cleaned_audio send_json now env id file w).2 !! path
       = Some (content file)
    /\ Episode.local_filename
         <$> episodes (upload_cleaned_audio send_json now env id file w).2 !! id
       = Some (Some path).
Proof.
  intros Hok.
  destruct (upload_ok_inv _ _ _ _ _ _ _ Hok)
    as (e & name & Hrow & Hfile & Hname & Hdir & Hwrite & [= _ ->]).
  destruct (upload_stored send_json now env id file w e name)
    as (s & log & Hup); try done.
  rewrite Hup. simpl.
  exists e, (str id +:+ "_" +:+ replace "/" "_" name).
  split; [done|]. split; [done|]. split; [|split; [|split]].
  - rewrite occurs_app, str_no by done.
    change ("_" +:+ replace "/" "_" name) with (String "_" (replace "/" "_" name)).
    apply orb_false_iff. split; [done|].
    apply orb_false_iff. split; [done|]. by apply occurs_replace.
  - by apply str_no.
  - apply lookup_insert_eq.
  - by rewrite lookup_insert_eq.
Qed.

Lemma upload_stays_in_feed_directory_witness :
  exists e leaf,
    episodes (sample_world QUEUED) !! 1 = Some e
    /\ "1/1_.._.._etc_passwd.mp3" = str (Episode.feed_id e) +:+ "/" +:+ leaf
    /\ occurs "/" leaf = false
    /\ occurs "/" (str (Episode.feed_id e)) = false
    /\ disk (upload_cleaned_audio socket_up 100 disk_ok 1
               (mkUpload (Some "../../etc/passwd.mp3") None "x")
               (sample_world QUEUED)).2 !! "1/1_.._.._etc_passwd.mp3"
       = Some "x"
    /\ Episode.local_filename
         <$> episodes (upload_cleaned_audio socket_up 100 disk_ok 1
               (mkUpload (Some "../../etc/passwd.mp3") None "x")
               (sample_world QUEUED)).2 !! 1
       = Some (Some "1/1_.._.._etc_passwd.mp3").
Proof.
  apply (upload_stays_in_feed_directory socket_up 100 disk_ok 1
           (mkUpload (Some "../../etc/passwd.mp3") None "x")
           (sample_world QUEUED) "File uploaded successfully").
  reflexivity.
Defined.

(** X6.  Artifacts of different episodes never share a path: two accepted
    uploads for different episode ids, into any two states of the store
    and under any names, are answered with different paths. *)
Theorem uploads_of_different_episodes_do_not_collide
    (send_json1 send_json2 : WebSocket -> ProgressMessage -> result unit)
    (now1 now2 : Z) (env1 env2 : Storage) (id1 id2 : Z)
    (file1 file2 : UploadFile) (w1 w2 : World) (m1 m2 : string)
    (path1 path2 : string) :
  (upload_cleaned_audio send_json1 now1 env1 id1 file1 w1).1
    = Ok (m1, id1, Some path1) ->
  (upload_cleaned_audio send_json2 now2 env2 id2 file2 w2).1
    = Ok (m2, id2, Some path2) ->
  id1 <> id2 ->
  path1 <> path2.
Proof.
  intros H1 H2 Hne Hpath.
  destruct (upload_ok_inv _ _ _ _ _ _ _ H1)
    as (e1 & n1 & _ & _ & _ & _ & _ & [= _ ->]).
  destruct (upload_ok_inv _ _ _ _ _ _ _ H2)
    as (e2 & n2 & _ & _ & _ & _ & _ & [= _ ->]).
  by apply artifact_path_inj in Hpath as (_ & ? & _).
Qed.

Lemma uploads_of_different_episodes_do_not_collide_witness :
  "1/1_episode_1_cleaned.mp3" <> "1/2_episode_1_cleaned.mp3".
Proof.
  apply (uploads_of_different_episodes_do_not_collide socket_up socket_up
           100 200 disk_ok disk_ok 1 2 sample_upload sample_upload
           larger_world larger_world
           "File uploaded successfully" "File uploaded successfully"
           "1/1_episode_1_cleaned.mp3" "1/2_episode_1_cleaned.mp3").
  - reflexivity.
  - reflexivity.
  - discriminate.
Defined.

(** ** Refused uploads, and uploads that get published *)

(** X7.  An upload that is refused changes no row and announces nothing:
    it is refused with 404 for an unknown episode, with 400 for a name
    that is not an MP3 name, with the directory error when the feed's
    directory cannot be made (the store being untouched in these three
    cases), or with 500 when the write fails, in which case feeds,
    episodes (the status among them), channel, observers and deliveries
    are as before. *)
Theorem refused_upload_changes_no_row
    (send_json : WebSocket -> ProgressMessage -> result unit) (now : Z)
    (env : Storage) (id : Z) (file : UploadFile) (w : World) (ex : exn) :
  (upload_cleaned_audio send_json now env id file w).1 = Raise ex ->
  let w' := (upload_cleaned_audio send_json now env id file w).2 in
  (ex = HTTPException 404 ("Episode " +:+ str id +:+ " not found")
   /\ episodes w !! id = None /\ w' = w)
  \/ (ex = HTTPException 400 "Only MP3 files are accepted"
      /\ is_Some (episodes w !! id) /\ mp3_name file = false /\ w' = w)
  \/ (ex = OSError /\ mp3_name file = true /\ mkdir_ok env = false /\ w' = w)
  \/ (ex = HTTPException 500 "Failed to save file"
      /\ (exists left, write env = WriteFailed left)
      /\ feeds w' = feeds w /\ episodes w' = episodes w
      /\ channel w' = channel w
      /\ active_connections w' = active_connections w
      /\ delivered w' = delivered w).
Proof.
  unfold upload_cleaned_audio.
  destruct (episodes w !! id) as [e|] eqn:Hrow;
    [|intros [= <-]; by left].
  fold (mp3_name file). rewrite <- negb_andb. fold (mp3_name file).
  destruct (mp3_name file) eqn:Hname; simpl negb; cbv iota;
    [|intros [= <-]; right; left; eauto].
  destruct (mkdir_ok env) eqn:Hdir; simpl negb; cbv iota;
    [|intros [= <-]; right; right; left; eauto].
  destruct (write env) as [|left] eqn:Hwrite.
  - match goal with |- context [broadcast send_json ?m ?w0] =>
      destruct (broadcast_returns send_json m w0) as (s & log & ->) end.
    done.
  - intros [= <-]. right. right. right.
    split; [done|]. split; [by exists left|]. by destruct left.
Qed.

Lemma refused_upload_changes_no_row_witness :
  let w' := (upload_cleaned_audio socket_up 100
               (mkStorage true (WriteFailed (Some "ID")))
               1 sample_upload (sample_world QUEUED)).2 in
  (HTTPException 500 "Failed to save file"
     = HTTPException 404 ("Episode " +:+ str 1 +:+ " not found")
   /\ episodes (sample_world QUEUED) !! 1 = None /\ w' = sample_world QUEUED)
  \/ (HTTPException 500 "Failed to save file"
        = HTTPException 400 "Only MP3 files are accepted"
      /\ is_Some (episodes (sample_world QUEUED) !! 1)
      /\ mp3_name sample_upload = false /\ w' = sample_world QUEUED)
  \/ (HTTPException 500 "Failed to save file" = OSError
      /\ mp3_name sample_upload = true
      /\ mkdir_ok (mkStorage true (WriteFailed (Some "ID"))) = false
      /\ w' = sample_world QUEUED)
  \/ (HTTPException 500 "Failed to save file"
        = HTTPException 500 "Failed to save file"
      /\ (exists left, write (mkStorage true (WriteFailed (Some "ID")))
                       = WriteFailed left)
      /\ feeds w' = feeds (sample_world QUEUED)
      /\ episodes w' = episodes (sample_world QUEUED)
      /\ channel w' = channel (sample_world QUEUED)
      /\ active_connections w' = active_connections (sample_world QUEUED)
      /\ delivered w' = delivered (sample_world QUEUED)).
Proof.
  apply (refused_upload_changes_no_row socket_up 100
           (mkStorage true (WriteFailed (Some "ID"))) 1 sample_upload
           (sample_world QUEUED) (HTTPException 500 "Failed to save file")).
  reflexivity.
Defined.

Lemma elem_of_published_rows feed_id w id e :
  (id, e) ∈ published_rows feed_id w <->
  episodes w !! id = Some e /\ publishable feed_id (id, e).
Proof.
  rewrite published_rows_perm, list_elem_of_filter, elem_of_map_to_list. tauto.
Qed.

Lemma artifact_path_truthy id e name :
  truthy (Some (artifact_path id e name)) = true.
Proof. unfold artifact_path. simpl. by destruct (str (Episode.feed_id e)). Qed.

(** X8.  Once the cleaned audio of an episode has been accepted, the
    published feed of the episode's feed has an item for it: the item
    carries the episode's title and guid, the time of the upload as its
    date, and an enclosure of type [audio/mpeg] whose URL is the public
    files prefix followed by the path the upload was stored under. *)
Theorem accepted_upload_is_published
    (send_json : WebSocket -> ProgressMessage -> result unit)
    (now later : Z) (env : Storage) (id : Z) (file : UploadFile) (w : World)
    (e : Episode.t) (feed : Feed.t) (message path : string) :
  episodes w !! id = Some e ->
  feeds w !! Episode.feed_id e = Some feed ->
  (upload_cleaned_audio send_json now env id file w).1
    = Ok (message, id, Some path) ->
  exists channel item,
    get_feed_rss later (Episode.feed_id e)
      (upload_cleaned_audio send_json now env id file w).2 = Ok channel
    /\ item ∈ ch_items channel
    /\ rss_title item = Episode.title e /\ rss_guid item = Episode.guid e
    /\ rss_pubDate item = now
    /\ enclosure_type item = "audio/mpeg"
    /\ enclosure_url item = "https://" +:+ PUBLIC_HOSTNAME +:+ "/files/" +:+ path
    /\ disk (upload_cleaned_audio send_json now env id file w).2 !! path
       = Some (content file).
Proof.
  intros Hrow Hfeed Hok.
  destruct (upload_ok_inv _ _ _ _ _ _ _ Hok)
    as (e' & name & Hrow' & Hfile & Hname & Hdir & Hwrite & [= _ ->]).
  rewrite Hrow in Hrow'. injection Hrow' as <-.
  destruct (upload_stored send_json now env id file w e name)
    as (s & log & ->); try done.
  cbn [snd]. unfold get_feed_rss. cbn [feeds with_connections with_episodes
    with_disk]. rewrite Hfeed.
  eexists _, (rss_item (cleaned now (artifact_path id e name) e)).
  split; [reflexivity|]. cbn [ch_items]. split.
  - apply list_elem_of_fmap.
    exists (id, cleaned now (artifact_path id e name) e). split; [done|].
    apply elem_of_published_rows. split.
    + cbn [episodes with_connections with_episodes]. apply lookup_insert_eq.
    + split; [done|]. split; [done|]. apply artifact_path_truthy.
  - repeat split; try done. cbn [disk with_connections with_episodes with_disk].
    apply lookup_insert_eq.
Qed.

Lemma accepted_upload_is_published_witness :
  exists channel item,
    get_feed_rss 500 (Episode.feed_id (sample_episode QUEUED))
      (upload_cleaned_audio socket_up 100 disk_ok 1 sample_upload
         larger_world).2 = Ok channel
    /\ item ∈ ch_items channel
    /\ rss_title item = Episode.title (sample_episode QUEUED)
    /\ rss_guid item = Episode.guid (sample_episode QUEUED)
    /\ rss_pubDate item = 100
    /\ enclosure_type item = "audio/mpeg"
    /\ enclosure_url item
       = "https://" +:+ PUBLIC_HOSTNAME +:+ "/files/" +:+ "1/1_episode_1_cleaned.mp3"
    /\ disk (upload_cleaned_audio socket_up 100 disk_ok 1 sample_upload
               larger_world).2 !! "1/1_episode_1_cleaned.mp3"
       = Some (content sample_upload).
Proof.
  apply (accepted_upload_is_published socket_up 100 500 disk_ok 1 sample_upload
           larger_world (sample_episode QUEUED) sample_feed
           "File uploaded successfully" "1/1_episode_1_cleaned.mp3");
    reflexivity.
Defined.

(** ** Deleting a feed *)

Lemma elem_of_select {A} (P : A -> bool) (table : gmap Z A) k x :
  (k, x) ∈ select P table <-> table !! k = Some x /\ P x = true.
Proof.
  unfold select. rewrite list_elem_of_filter, elem_of_map_to_list. simpl. tauto.
Qed.

Lemma NoDup_select_keys {A} (P : A -> bool) (table : gmap Z A) :
  NoDup (select P table).*1.
Proof.
  unfold select. apply (sublist_NoDup _ _ (NoDup_fst_map_to_list table)).
  apply fmap_sublist, sublist_filter.
Qed.

Lemma lookup_fold_delete_iff {A} (rows : list (Z * A)) (m : gmap Z A) k x :
  foldl (fun m r => delete r.1 m) m rows !! k = Some x <->
  m !! k = Some x /\ k ∉ rows.*1.
Proof.
  revert m. induction rows as [|r rows IH]; intros m; simpl.
  - split; [intros H; split; [done|apply not_elem_of_nil]|tauto].
  - rewrite IH, lookup_delete_Some, not_elem_of_cons. naive_solver.
Qed.

Lemma size_fold_delete {A} (rows : list (Z * A)) (m : gmap Z A) :
  NoDup rows.*1 -> (forall r, r ∈ rows -> m !! r.1 = Some r.2) ->
  (size (foldl (fun m r => delete r.1 m) m rows) + length rows = size m)%nat.
Proof.
  revert m. induction rows as [|r rows IH]; intros m Hnd Hin; simpl; [lia|].
  apply NoDup_cons in Hnd as [Hr Hnd].
  assert (Hrest : forall r', r' ∈ rows -> delete r.1 m !! r'.1 = Some r'.2).
  { intros r' Hr'. rewrite lookup_delete_ne; [apply Hin; by right|].
    intros Heq. apply Hr. rewrite Heq. by apply list_elem_of_fmap_2. }
  pose proof (IH (delete r.1 m) Hnd Hrest) as Hsz.
  pose proof (Hin r ltac:(left)) as Hr0.
  rewrite map_size_delete_Some in Hsz by eauto.
  assert (size m <> 0%nat); [|lia].
  intros Hz%map_size_empty_inv. by rewrite Hz, lookup_empty in Hr0.
Qed.

(** X9.  Deleting a feed that exists removes its row and every episode row
    that points at it and nothing else: an episode row is there afterwards
    exactly when it was there before and belongs to another feed; the
    number reported is the number of rows removed; the files on the disk
    and the work channel stay as they were; and when every episode pointed
    at a feed before, every episode still does. *)
Theorem delete_feed_cascades (feed_id : Z) (w : World) (feed : Feed.t) :
  feeds w !! feed_id = Some feed ->
  exists n w',
    delete_feed feed_id w = (Ok n, w')
    /\ feeds w' = delete feed_id (feeds w)
    /\ (forall id e, episodes w' !! id = Some e <->
          episodes w !! id = Some e /\ Episode.feed_id e <> feed_id)
    /\ (size (episodes w') + n = size (episodes w))%nat
    /\ disk w' = disk w /\ channel w' = channel w
    /\ (referential_integrity w -> referential_integrity w').
Proof.
  intros Hfeed. unfold delete_feed. rewrite Hfeed.
  set (rows := select _ (episodes w)).
  assert (Hrows : forall id e, foldl (fun m r => delete r.1 m) (episodes w) rows
                                 !! id = Some e <->
            episodes w !! id = Some e /\ Episode.feed_id e <> feed_id).
  { intros id e. rewrite lookup_fold_delete_iff. split.
    - intros [He Hout]. split; [done|]. intros Hf. apply Hout.
      apply list_elem_of_fmap. exists (id, e). split; [done|].
      apply elem_of_select. by rewrite bool_decide_eq_true.
    - intros [He Hne]. split; [done|].
      intros ([id' e'] & -> & Hin)%list_elem_of_fmap.
      apply elem_of_select in Hin as [He' Hf%bool_decide_eq_true].
      simpl in *. congruence. }
  eexists _, _. split; [reflexivity|]. simpl.
  split; [done|]. split; [exact Hrows|]. split; [|split; [done|split; [done|]]].
  - apply size_fold_delete; [apply NoDup_select_keys|].
    intros [id e] Hin. by apply elem_of_select in Hin as [He _].
  - intros Hfk id e Hrow. simpl in *. apply Hrows in Hrow as [He Hne].
    specialize (Hfk id e He). simpl in Hfk.
    rewrite dom_delete_L. set_solver.
Qed.

Lemma delete_feed_cascades_witness :
  exists n w',
    delete_feed 1 larger_world = (Ok n, w')
    /\ feeds w' = delete 1 (feeds larger_world)
    /\ (forall id e, episodes w' !! id = Some e <->
          episodes larger_world !! id = Some e /\ Episode.feed_id e <> 1)
    /\ (size (episodes w') + n = size (episodes larger_world))%nat
    /\ disk w' = disk larger_world /\ channel w' = channel larger_world
    /\ (referential_integrity larger_world -> referential_integrity w').
Proof.
  apply (delete_feed_cascades 1 larger_world sample_feed). reflexivity.
Defined.

(** X10.  After a delete request for a feed id, answered with success or
    not, the feed is unknown to every later request: deleting it again,
    asking for its published feed, triggering its ingestion (which is then
    not started) and setting its auto-process flag are each refused with
    404 and leave the store as it is. *)
Theorem deleted_feed_is_unknown (ingest_feed : Ingest) (now : Z)
    (feed_id : Z) (flag : bool) (w : World) :
  let w' := (delete_feed feed_id w).2 in
  let not_found :=
    HTTPException 404 ("Feed " +:+ str feed_id +:+ " not found") in
  delete_feed feed_id w' = (Raise not_found, w')
  /\ get_feed_rss now feed_id w' = Raise not_found
  /\ trigger_ingest ingest_feed feed_id w' = (Raise not_found, w')
  /\ update_feed_auto_process now feed_id flag w' = (Raise not_found, w').
Proof.
  intros w' not_found.
  assert (Hgone : feeds w' !! feed_id = None).
  { subst w'. unfold delete_feed.
    destruct (feeds w !! feed_id) eqn:Hfeed; simpl; [|done].
    apply lookup_delete_eq. }
  unfold delete_feed, get_feed_rss, trigger_ingest, update_feed_auto_process.
  by rewrite Hgone.
Qed.

(** ** Creating and configuring feeds *)

Lemma select_nil {A} (P : A -> bool) (table : gmap Z A) :
  select P table = [] <-> forall k x, table !! k = Some x -> P x = false.
Proof.
  split.
  - intros Hnil k x Hx. apply not_true_is_false. intros HP.
    assert (Hin : (k, x) ∈ select P table) by by apply elem_of_select.
    rewrite Hnil in Hin. by apply elem_of_nil in Hin.
  - intros Hall. destruct (select P table) as [|[k x] l] eqn:Hsel; [done|].
    assert (Hin : (k, x) ∈ select P table) by (rewrite Hsel; left).
    apply elem_of_select in Hin as [Hx HP]. rewrite (Hall k x Hx) in HP. done.
Qed.

Lemma create_feed_ok_inv ingest_feed now metadata rss_url w feed :
  (create_feed ingest_feed now metadata rss_url w).1 = Ok feed ->
  (forall k f, feeds w !! k = Some f -> Feed.rss_url f <> rss_url)
  /\ (exists md, metadata = Some md
        /\ feed = Feed.mk (fresh (dom (feeds w)))
                    (md_title md +:+ " (Purified)") rss_url false now now)
  /\ feeds (create_feed ingest_feed now metadata rss_url w).2
     = <[fresh (dom (feeds w)) := feed]> (feeds w)
  /\ disk (create_feed ingest_feed now metadata rss_url w).2 = disk w
  /\ channel (create_feed ingest_feed now metadata rss_url w).2 = channel w.
Proof.
  unfold create_feed.
  destruct (select _ (feeds w)) as [|r l] eqn:Hsel; [|done].
  destruct metadata as [md|]; [|done].
  assert (Hnew : forall k f, feeds w !! k = Some f -> Feed.rss_url f <> rss_url).
  { intros k f Hf Hurl. rewrite select_nil in Hsel.
    specialize (Hsel k f Hf). simpl in Hsel.
    by rewrite Hurl, String.eqb_refl in Hsel. }
  destruct (ingest_feed _ _) as [[eps created]|ex]; simpl; intros [= <-];
    (split; [done|]; split; [by exists md|done]).
Qed.

Lemma create_feed_duplicate ingest_feed now metadata rss_url w k f :
  feeds w !! k = Some f -> Feed.rss_url f = rss_url ->
  create_feed ingest_feed now metadata rss_url w
    = (Raise (HTTPException 400 "Feed with this URL already exists"), w).
Proof.
  intros Hf Hurl. unfold create_feed.
  destruct (select _ (feeds w)) as [|r l] eqn:Hsel; [|done].
  rewrite select_nil in Hsel. specialize (Hsel k f Hf). simpl in Hsel.
  by rewrite Hurl, String.eqb_refl in Hsel.
Qed.

(** X11.  A feed is not created twice and not created blind: a request
    whose URL some feed already has is refused with 400 whatever the
    metadata, and a request for a new URL whose metadata extraction gave
    nothing is refused with 400; in both cases nothing is stored and the
    ingestion pass is not started. *)
Theorem create_feed_refusals (ingest_feed : Ingest) (now : Z)
    (metadata : option Metadata) (rss_url : string) (w : World) :
  (forall k f, feeds w !! k = Some f -> Feed.rss_url f = rss_url ->
     create_feed ingest_feed now metadata rss_url w
       = (Raise (HTTPException 400 "Feed with this URL already exists"), w))
  /\ ((forall k f, feeds w !! k = Some f -> Feed.rss_url f <> rss_url) ->
      create_feed ingest_feed now None rss_url w
        = (Raise (HTTPException 400
                    "Could not parse RSS feed. Please check the URL."), w)).
Proof.
  split.
  - intros k f. apply create_feed_duplicate.
  - intros Hnew. unfold create_feed.
    destruct (select _ (feeds w)) as [|[k f] l] eqn:Hsel; [done|].
    assert (Hin : (k, f) ∈ select (fun f => String.eqb (Feed.rss_url f) rss_url)
                              (feeds w)) by (rewrite Hsel; left).
    apply elem_of_select in Hin as [Hf Hurl%String.eqb_eq].
    by destruct (Hnew k f Hf).
Qed.



(** X13.  Triggering ingestion fails with 404 for an unknown feed without
    starting the pass; for a known feed an exception of the pass is passed
    on to the caller unchanged and nothing is stored (unlike feed creation,
    which drops it); in every case the feed table, the disk and the work
    channel are left alone. *)
Theorem trigger_ingest_failures (ingest_feed : Ingest) (feed_id : Z)
    (w : World) :
  let w' := (trigger_ingest ingest_feed feed_id w).2 in
  feeds w' = feeds w /\ disk w' = disk w /\ channel w' = channel w
  /\ (feeds w !! feed_id = None ->
      trigger_ingest ingest_feed feed_id w
        = (Raise (HTTPException 404 ("Feed " +:+ str feed_id +:+ " not found")),
           w))
  /\ (forall ex, is_Some (feeds w !! feed_id) ->
        ingest_feed feed_id (episodes w) = Raise ex ->
        trigger_ingest ingest_feed feed_id w = (Raise ex, w))
  /\ (forall r, (trigger_ingest ingest_feed feed_id w).1 = Ok r ->
        is_Some (feeds w !! feed_id)
        /\ exists eps created,
             ingest_feed feed_id (episodes w) = Ok (eps, created)
             /\ episodes w' = eps /\ length r = length created).
Proof.
  unfold trigger_ingest.
  destruct (feeds w !! feed_id) as [feed|] eqn:Hfeed.
  - destruct (ingest_feed feed_id (episodes w)) as [[eps created]|ex] eqn:Hing;
      cbn [fst snd feeds disk channel episodes with_episodes].
    + split; [done|]. split; [done|]. split; [done|]. split; [done|].
      split; [by intros ex _ [=]|].
      intros r [= <-]. split; [by eexists|].
      exists eps, created. by rewrite length_map.
    + split; [done|]. split; [done|]. split; [done|]. split; [done|].
      split; [by intros ex' _ [= <-]|]. by intros r [=].
  - cbn [fst snd]. split; [done|]. split; [done|]. split; [done|].
    split; [done|]. split; [by intros ex [? [=]]|]. by intros r [=].
Qed.

(** X14.  Setting the auto-process flag of a known feed rewrites that
    feed's flag and [updated_at] and nothing else: the feed keeps its id,
    title, URL and creation date, the other feeds and all episodes are
    untouched and URLs stay unique.  The flag is inert: the published feed
    of every feed and the outcome of every queue request are the same
    whether or not the flag was set.  Setting the same value again at the
    same time changes nothing. *)
Theorem auto_process_flag_is_inert (send_task : Broker) (now : Z)
    (feed_id : Z) (flag : bool) (w : World) (feed : Feed.t) :
  feeds w !! feed_id = Some feed ->
  let w' := (update_feed_auto_process now feed_id flag w).2 in
  (update_feed_auto_process now feed_id flag w).1
    = Ok (Feed.mk (Feed.id feed) (Feed.title feed) (Feed.rss_url feed) flag
            (Feed.created_at feed) now)
  /\ feeds w' = <[feed_id := Feed.mk (Feed.id feed) (Feed.title feed)
                               (Feed.rss_url feed) flag
                               (Feed.created_at feed) now]> (feeds w)
  /\ episodes w' = episodes w /\ disk w' = disk w /\ channel w' = channel w
  /\ (unique_urls (feeds w) -> unique_urls (feeds w'))
  /\ (forall later fid, get_feed_rss later fid w' = get_feed_rss later fid w)
  /\ (forall later episode_ids,
        (queue_episodes send_task later episode_ids w').1
          = (queue_episodes send_task later episode_ids w).1
        /\ episodes (queue_episodes send_task later episode_ids w').2
          = episodes (queue_episodes send_task later episode_ids w).2
        /\ channel (queue_episodes send_task later episode_ids w').2
          = channel (queue_episodes send_task later episode_ids w).2)
  /\ update_feed_auto_process now feed_id flag w'
     = ((update_feed_auto_process now feed_id flag w).1, w').
Proof.
  intros Hfeed w'. subst w'. unfold update_feed_auto_process. rewrite Hfeed.
  cbn [fst snd]. unfold set_auto_process.
  set (feed' := Feed.mk _ _ _ _ _ _).
  split; [done|]. split; [done|]. split; [done|]. split; [done|].
  split; [done|]. split; [|split; [|split; [done|]]].
  - intros Huniq i j f g. cbn [feeds with_feeds]. intros Hi Hj Hurl.
    apply lookup_insert_Some in Hi as [[Hi Hf]|[Hni Hi]];
      apply lookup_insert_Some in Hj as [[Hj Hg]|[Hnj Hj]].
    + congruence.
    + rewrite <- Hi. apply (Huniq feed_id j feed g Hfeed Hj).
      by rewrite <- Hurl, <- Hf.
    + rewrite <- Hj. apply (Huniq i feed_id f feed Hi Hfeed).
      by rewrite Hurl, <- Hg.
    + by apply (Huniq i j f g).
  - intros later fid. unfold get_feed_rss. cbn [feeds with_feeds].
    destruct (decide (feed_id = fid)) as [<-|Hne].
    + by rewrite lookup_insert_eq, Hfeed.
    + by rewrite lookup_insert_ne.
  - cbn [feeds with_feeds]. rewrite lookup_insert_eq. cbn [fst snd].
    unfold set_auto_process. cbn. f_equal.
    destruct w. unfold with_feeds. cbn. f_equal.
    by rewrite insert_insert_eq.
Qed.

Lemma auto_process_flag_is_inert_witness :
  let w' := (update_feed_auto_process 300 2 false larger_world).2 in
  (update_feed_auto_process 300 2 false larger_world).1
    = Ok (Feed.mk 2 "News (Purified)" "http://example.com/news" false 5 300)
  /\ feeds w' = <[2 := Feed.mk 2 "News (Purified)" "http://example.com/news"
                         false 5 300]> (feeds larger_world)
  /\ episodes w' = episodes larger_world /\ disk w' = disk larger_world
  /\ channel w' = channel larger_world
  /\ (unique_urls (feeds larger_world) -> unique_urls (feeds w'))
  /\ (forall later fid,
        get_feed_rss later fid w' = get_feed_rss later fid larger_world)
  /\ (forall later episode_ids,
        (queue_episodes broker_up later episode_ids w').1
          = (queue_episodes broker_up later episode_ids larger_world).1
        /\ episodes (queue_episodes broker_up later episode_ids w').2
          = episodes (queue_episodes broker_up later episode_ids larger_world).2
        /\ channel (queue_episodes broker_up later episode_ids w').2
          = channel (queue_episodes broker_up later episode_ids larger_world).2)
  /\ update_feed_auto_process 300 2 false w'
     = ((update_feed_auto_process 300 2 false larger_world).1, w').
Proof.
  apply (auto_process_flag_is_inert broker_up 300 2 false larger_world
           (Feed.mk 2 "News (Purified)" "http://example.com/news" true 5 5)).
  reflexivity.
Defined.

(** ** Progress reports and observers *)

(** X15.  A progress report is relayed as it is and stored nowhere: for
    any episode id, known or not, and any progress value and stage, the
    request answers ["ok"], even when no observer takes the event; feeds,
    episodes (their status among them), disk and work channel are
    unchanged.  The report is delivered, once, to every connected observer
    whose socket takes the frame and to nobody else, what it gets is the
    reported triple, and exactly those observers stay subscribed. *)
Theorem progress_report_stores_nothing
    (send_json : WebSocket -> ProgressMessage -> result unit)
    (episode_id progress : Z) (stage : string) (w : World) :
  let w' := (update_progress send_json episode_id progress stage w).2 in
  let report := mkProgress episode_id progress stage in
  (update_progress send_json episode_id progress stage w).1 = Ok "ok"
  /\ feeds w' = feeds w /\ episodes w' = episodes w
  /\ disk w' = disk w /\ channel w' = channel w
  /\ active_connections w' ⊆ active_connections w
  /\ (forall c, c ∈ active_connections w' <->
         c ∈ active_connections w /\ accepts send_json report c)
  /\ exists sent,
       delivered w' = delivered w ++ sent
       /\ NoDup sent
       /\ (forall c, c ∈ active_connections w -> accepts send_json report c ->
             (c, report) ∈ sent)
       /\ (forall c m, (c, m) ∈ sent <->
             m = report /\ c ∈ active_connections w
             /\ accepts send_json report c)
       /\ forall c m, (c, m) ∈ sent ->
            c ∈ active_connections w
            /\ pm_episode_id m = episode_id /\ pm_progress m = progress
            /\ pm_stage m = stage.
Proof.
  intros w' report. subst w'. unfold update_progress.
  rewrite broadcast_delivers. fold report. cbn [fst snd mbind result_bind].
  cbn [feeds episodes disk channel active_connections delivered with_connections].
  assert (Hsent : forall c m,
    (c, m) ∈ ((fun c => (c, report))
                <$> filter (accepts send_json report)
                      (elements (active_connections w))) <->
    m = report /\ c ∈ active_connections w /\ accepts send_json report c).
  { intros c m. rewrite list_elem_of_fmap. split.
    - intros (c' & [= -> ->] & Hin).
      apply list_elem_of_filter in Hin as [Hok Hin%elem_of_elements]. done.
    - intros (-> & Hin & Hok). exists c. split; [done|].
      apply list_elem_of_filter. split; [done|]. by apply elem_of_elements. }
  split; [done|]. split; [done|]. split; [done|]. split; [done|].
  split; [done|]. split.
  { intros c Hc. by apply elem_of_filter in Hc as [_ Hc]. }
  split.
  { intros c. rewrite elem_of_filter. tauto. }
  eexists. split; [reflexivity|]. split.
  { apply NoDup_fmap_2; [by intros ?? [=]|]. apply NoDup_filter, NoDup_elements. }
  split.
  { intros c Hin Hok. by apply Hsent. }
  split; [exact Hsent|].
  intros c m (-> & Hin & _)%Hsent. done.
Qed.

(** X16.  Observers are a set and events are not replayed: connecting or
    disconnecting twice is the same as once, disconnecting an observer
    that is not connected changes nothing, and neither touches what was
    delivered.  A broadcast after a disconnect sends nothing to the one
    that left; a broadcast after a connect reaches the newcomer exactly
    when its socket takes the frame, in which case it stays subscribed. *)
Theorem observers_are_a_set
    (send_json : WebSocket -> ProgressMessage -> result unit)
    (c : WebSocket) (message : ProgressMessage) (w : World) :
  connect c (connect c w) = connect c w
  /\ disconnect c (disconnect c w) = disconnect c w
  /\ (c ∉ active_connections w -> disconnect c w = w)
  /\ delivered (connect c w) = delivered w
  /\ delivered (disconnect c w) = delivered w
  /\ (forall m,
        (c, m) ∈ delivered (broadcast send_json message (disconnect c w)).2 ->
        (c, m) ∈ delivered w)
  /\ ((c, message) ∈ delivered (broadcast send_json message (connect c w)).2
      <-> accepts send_json message c \/ (c, message) ∈ delivered w)
  /\ (c ∈ active_connections (broadcast send_json message (connect c w)).2
      <-> accepts send_json message c).
Proof.
  split; [|split; [|split; [|split; [done|split; [done|split; [|split]]]]]].
  - unfold connect, with_connections. cbn. f_equal. set_solver.
  - unfold disconnect, with_connections. cbn. f_equal. set_solver.
  - intros Hc. destruct w. unfold disconnect, with_connections. cbn in *.
    f_equal. set_solver.
  - intros m. rewrite broadcast_delivers. cbn.
    intros [Hin|Hin]%elem_of_app; [done|].
    apply list_elem_of_fmap in Hin as (c' & [= <- ->] & Hin).
    apply list_elem_of_filter in Hin as [_ Hin%elem_of_elements]. set_solver.
  - rewrite broadcast_delivers. cbn. rewrite elem_of_app, list_elem_of_fmap.
    split.
    + intros [Hin|(c' & [= <-] & Hin)]; [by right|].
      apply list_elem_of_filter in Hin as [Hok _]. by left.
    + intros [Hok|Hin]; [|by left]. right. exists c. split; [done|].
      apply list_elem_of_filter. split; [done|].
      apply elem_of_elements. set_solver.
  - rewrite broadcast_delivers. cbn. rewrite elem_of_filter. set_solver.
Qed.

(** ** Requests that name nothing eligible *)

(** X17.  Bulk requests pass over what they cannot act on without an
    error: an ignore request that names only unknown ids and episodes that
    are neither [DISCOVERED] nor [FAILED], an un-ignore request that names
    only unknown ids, and a queue request that names only unknown ids and
    episodes that are neither [DISCOVERED] nor [FAILED] (the empty request
    among them) each answer with a count of 0 and change nothing. *)
Theorem bulk_requests_skip_ineligible (send_task : Broker) (now : Z)
    (episode_ids : list Z) (w : World) :
  ((forall id e, id ∈ episode_ids -> episodes w !! id = Some e ->
      Episode.status e ∉ [DISCOVERED; FAILED]) ->
   ignore_episodes now episode_ids w = (Ok 0, w)
   /\ queue_episodes send_task now episode_ids w = (Ok (0, []), w))
  /\ ((forall id, id ∈ episode_ids -> episodes w !! id = None) ->
      unignore_episodes now episode_ids w = (Ok 0, w)).
Proof.
  split.
  - intros Hall.
    assert (Hskip : forall id e, id ∈ episode_ids -> episodes w !! id = Some e ->
              status_in (Episode.status e) [DISCOVERED; FAILED] = false).
    { intros id e Hin He. apply not_true_is_false. rewrite status_in_spec.
      by apply (Hall id e). }
    split.
    + unfold ignore_episodes. rewrite ignore_fold_skip by done.
      by rewrite world_eta.
    + unfold queue_episodes. rewrite queue_fold_noop.
      * cbn [queued_count dispatched_tasks q_channel q_session].
        by rewrite with_channel_episodes_eta.
      * intros id Hin. unfold settled. cbn [q_session].
        destruct (episodes w !! id) as [e|] eqn:He; [|done].
        by apply (Hskip id e).
  - intros Hall. unfold unignore_episodes.
    rewrite unignore_fold_skip by done. by rewrite world_eta.
Qed.

(** ** What no handler does to an episode *)

Lemma same_identity_refl e : same_identity e e.
Proof. by repeat split. Qed.

Lemma rows_continue_refl eps : rows_continue eps eps.
Proof. intros id e He. exists e. split; [done|apply same_identity_refl]. Qed.

Lemma upload_tables send_json now env id file w :
  let w' := (upload_cleaned_audio send_json now env id file w).2 in
  feeds w' = feeds w
  /\ (episodes w' = episodes w
      \/ exists e path, episodes w !! id = Some e
           /\ episodes w' = <[id := cleaned now path e]> (episodes w)).
Proof.
  unfold upload_cleaned_audio.
  destruct (episodes w !! id) as [e|] eqn:He; [|by split; [|left]].
  destruct (_ || _); [by split; [|left]|].
  destruct (negb (mkdir_ok env)); [by split; [|left]|].
  destruct (write env) as [|[bytes|]]; [|by split; [|left]..].
  match goal with |- context [broadcast send_json ?m ?w0] =>
    destruct (broadcast_returns send_json m w0) as (s & log & ->) end.
  split; [done|]. right. by eexists e, _.
Qed.

(** X18.  No request reparents, renames or invents an episode: after a
    queue request, a completion callback, a feed deletion, an ignore or an
    un-ignore request, every episode row continues a row that was there
    under the same key, with the same id, feed, guid, title, audio URL and
    creation date; queue and callback leave the feed table alone, so an
    episode that pointed at a feed still does. *)
Theorem episodes_keep_their_identity
    (send_json : WebSocket -> ProgressMessage -> result unit)
    (send_task : Broker) (now : Z) (env : Storage) (id feed_id : Z)
    (file : UploadFile) (episode_ids : list Z) (w : World) :
  let after_queue := (queue_episodes send_task now episode_ids w).2 in
  let after_upload := (upload_cleaned_audio send_json now env id file w).2 in
  rows_continue (episodes w) (episodes after_queue)
  /\ rows_continue (episodes w) (episodes after_upload)
  /\ rows_continue (episodes w) (episodes (delete_feed feed_id w).2)
  /\ rows_continue (episodes w) (episodes (ignore_episodes now episode_ids w).2)
  /\ rows_continue (episodes w) (episodes (unignore_episodes now episode_ids w).2)
  /\ (referential_integrity w ->
      referential_integrity after_queue /\ referential_integrity after_upload).
Proof.
  intros after_queue after_upload.
  assert (Hq : rows_continue (episodes w) (episodes after_queue)).
  { subst after_queue. unfold queue_episodes. cbn.
    pose proof (dispatch_log_fold send_task now (episodes w) (channel w)
                  episode_ids _ (dispatch_log_start send_task now w))
      as (_ & _ & _ & Hrows & _).
    intros k e' He'. destruct (Hrows k) as [Heq|(e & He & _ & Hk)].
    - exists e'. split; [by rewrite <- Heq|apply same_identity_refl].
    - rewrite Hk in He'. injection He' as <-. exists e. by repeat split. }
  assert (Hu : rows_continue (episodes w) (episodes after_upload)).
  { subst after_upload.
    destruct (upload_tables send_json now env id file w)
      as [_ [-> | (e & path & He & ->)]]; [apply rows_continue_refl|].
    intros k e'. rewrite lookup_insert. case_decide as Hk.
    - intros [= <-]. subst k. exists e. by repeat split.
    - intros He'. exists e'. split; [done|apply same_identity_refl]. }
  split; [done|]. split; [done|]. split; [|split; [|split]].
  - unfold delete_feed. destruct (feeds w !! feed_id); [|apply rows_continue_refl].
    cbn. intros k e' He'. apply lookup_fold_delete in He'.
    exists e'. split; [done|apply same_identity_refl].
  - rewrite ignore_episodes_world. apply rows_continue_refl.
  - rewrite unignore_episodes_world. apply rows_continue_refl.
  - intros Hfk. split.
    + intros k e' He'. destruct (Hq k e' He') as (e & He & _ & Hfeed & _).
      specialize (Hfk k e He). simpl in Hfk. simpl. by rewrite Hfeed.
    + intros k e' He'. destruct (Hu k e' He') as (e & He & _ & Hfeed & _).
      specialize (Hfk k e He). simpl in Hfk. simpl. rewrite Hfeed.
      subst after_upload.
      by destruct (upload_tables send_json now env id file w) as [-> _].
Qed.

(** ** The worker's task *)

Lemma run_task_nonempty env fuel n trace :
  Worker.run_task fuel env n = Some trace -> trace <> [].
Proof.
  destruct fuel as [|fuel]; [done|]. simpl.
  destruct (Worker.process_episode n (env n)).2; try by intros [= <-].
  destruct (Worker.run_task fuel env (S n)); [|done]. by intros [= <-].
Qed.

Lemma run_task_success env fuel n trace :
  (n <= 3)%nat ->
  Worker.run_task fuel env n = Some trace ->
  (exists reports, last trace = Some (reports, Worker.Success)) <->
  (exists k, (n + k <= 3)%nat
     /\ (forall i, (i < k)%nat ->
           (Worker.body (env (n + i)%nat)).2 = Some Worker.RequestException)
     /\ (Worker.body (env (n + k)%nat)).2 = None).
Proof.
  revert n trace. induction fuel as [|fuel IH]; intros n trace Hn; [done|].
  cbn [Worker.run_task]. cbv zeta.
  pose proof (process_episode_spec n (env n)) as Hspec.
  destruct (Worker.body (env n)).2 as [[]|] eqn:Hbody.
  - destruct Hspec as [Hout _]. rewrite retry_spec in Hout. rewrite Hout.
    destruct (Nat.ltb_spec n 3) as [Hlt|Hge].
    + destruct (Worker.run_task fuel env (S n)) as [rest|] eqn:Hrest; [|done].
      intros [= <-]. pose proof (run_task_nonempty _ _ _ _ Hrest) as Hne.
      assert (Hlast : last (Worker.process_episode n (env n) :: rest) = last rest)
        by by destruct rest.
      rewrite Hlast, (IH (S n) rest ltac:(lia) Hrest). split.
      * intros (k & Hk & Hall & Hend). exists (S k). split; [lia|]. split.
        -- intros [|i] Hi; [by rewrite Nat.add_0_r|].
           replace (n + S i)%nat with (S n + i)%nat by lia. apply Hall. lia.
        -- by replace (n + S k)%nat with (S n + k)%nat by lia.
      * intros ([|k] & Hk & Hall & Hend);
          [rewrite Nat.add_0_r in Hend; congruence|].
        exists k. split; [lia|]. split.
        -- intros i Hi. replace (S n + i)%nat with (n + S i)%nat by lia.
           apply Hall. lia.
        -- by replace (S n + k)%nat with (n + S k)%nat by lia.
    + intros [= <-]. cbn [last].
      split; [intros (r & [= Heq]); by rewrite Heq in Hout|].
      intros ([|k] & Hk & _ & Hend); [|lia].
      rewrite Nat.add_0_r in Hend. congruence.
  - destruct Hspec as [Hout _]. rewrite Hout. intros [= <-]. cbn [last].
    split; [intros (r & [= Heq]); by rewrite Heq in Hout|].
    intros ([|k] & Hk & Hall & Hend).
    + rewrite Nat.add_0_r in Hend. congruence.
    + specialize (Hall 0%nat ltac:(lia)). rewrite Nat.add_0_r in Hall. congruence.
  - rewrite Hspec. intros [= <-]. cbn [last]. split.
    + intros _. exists 0%nat. rewrite Nat.add_0_r. split; [lia|].
      split; [intros i Hi; lia|done].
    + intros _. exists (Worker.process_episode n (env n)).1.
      rewrite <- Hspec. by destruct (Worker.process_episode n (env n)).
Qed.

(** X19.  A task ends in success exactly when one of its first four
    executions goes through and every execution before that one met a
    network-class error; a single error of another kind, or a fourth
    network error, ends it in failure. *)
Theorem task_succeeds_iff_an_execution_goes_through
    (env : nat -> Worker.Attempt) :
  exists trace,
    Worker.run_task 4 env 0 = Some trace
    /\ ((exists reports, last trace = Some (reports, Worker.Success)) <->
        exists k, (k <= 3)%nat
          /\ (forall i, (i < k)%nat ->
                (Worker.body (env i)).2 = Some Worker.RequestException)
          /\ (Worker.body (env k)).2 = None).
Proof.
  destruct (run_task_spec env 4 0) as (trace & Hrun & _); [lia|lia|].
  exists trace. split; [done|].
  apply (run_task_success env 4 0 trace ltac:(lia) Hrun).
Qed.

(** A run that recovers: two network errors during the upload, then an
    execution that goes through. *)
Example network_recovers_run :
  Worker.run_task 4 network_recovers 0 =
    Some [(take 5 stages ++ [(0, "failed")], Worker.Retry 60);
          (take 5 stages ++ [(0, "failed")], Worker.Retry 60);
          (stages, Worker.Success)].
Proof. reflexivity. Qed.

(** X20.  The reports of one execution follow a fixed script: an
    execution that goes through reports the six stages from 10 to 100 in
    order; any other execution reports the first one, three or five of
    them, according to whether the download, the processing or the upload
    failed, and then 0 with stage ["failed"]; so every reported progress
    lies between 0 and 100. *)
Theorem execution_reports_follow_the_stages (request_retries : nat)
    (a : Worker.Attempt) :
  let execution := Worker.process_episode request_retries a in
  ((execution.2 = Worker.Success /\ execution.1 = stages
    /\ Worker.download a = None /\ Worker.processing a = None
    /\ Worker.upload a = None)
   \/ (execution.2 <> Worker.Success
       /\ exists k, execution.1 = take k stages ++ [(0, "failed")]
            /\ ((k = 1%nat /\ Worker.download a <> None)
                \/ (k = 3%nat /\ Worker.download a = None
                    /\ Worker.processing a <> None)
                \/ (k = 5%nat /\ Worker.download a = None
                    /\ Worker.processing a = None /\ Worker.upload a <> None))))
  /\ Forall (fun r => 0 <= r.1 <= 100) execution.1.
Proof.
  destruct a as [[[]|] [[]|] [[]|]]; cbn; (split;
    [ first
        [ left; by repeat split
        | right; split;
          [ unfold Worker.retry; repeat case_match; discriminate
          | first
              [ exists 1%nat; split; [reflexivity|]; left; by split
              | exists 3%nat; split; [reflexivity|]; right; left;
                  by repeat split
              | exists 5%nat; split; [reflexivity|]; right; right;
                  by repeat split ] ] ]
    | repeat (apply Forall_cons_2; [cbn; lia|]); apply Forall_nil_2 ]).
Qed.

(** ** tasks.py: the dispatched message *)

Lemma string_app_inv_head s a b : s +:+ a = s +:+ b -> a = b.
Proof. induction s as [|c s IH]; simpl; [done|]. intros [= H]. by apply IH. Qed.

(** X21.  A dispatch that returns hands back the broker's task id for a
    message that carries the episode id, the audio URL it was given and a
    callback URL made of the manager's base URL, [/upload/] and the
    episode id in decimal; it raises exactly what the broker raises; and
    the callback URLs of different episodes differ. *)
Theorem dispatched_message_is_self_contained (send_task : Broker)
    (id1 id2 : Z) (url1 url2 : string) :
  (forall t m, dispatch_episode_processing send_task id1 url1 = Ok (t, m) ->
     send_task m = Ok t /\ wm_episode_id m = id1 /\ wm_audio_url m = url1
     /\ wm_callback_url m = MANAGER_BASE_URL +:+ "/upload/" +:+ str id1)
  /\ (forall ex, dispatch_episode_processing send_task id1 url1 = Raise ex ->
        send_task (mkWork id1 url1 (MANAGER_BASE_URL +:+ "/upload/" +:+ str id1))
          = Raise ex)
  /\ (forall t1 m1 t2 m2,
        dispatch_episode_processing send_task id1 url1 = Ok (t1, m1) ->
        dispatch_episode_processing send_task id2 url2 = Ok (t2, m2) ->
        wm_callback_url m1 = wm_callback_url m2 -> id1 = id2).
Proof.
  assert (Hinv : forall id url t m,
            dispatch_episode_processing send_task id url = Ok (t, m) ->
            m = mkWork id url (MANAGER_BASE_URL +:+ "/upload/" +:+ str id)
            /\ send_task m = Ok t).
  { intros id url t m. unfold dispatch_episode_processing.
    destruct (send_task _) as [t'|ex] eqn:Hsend; simpl; [|done].
    by intros [= <- <-]. }
  split; [|split].
  - intros t m [-> Hsend]%Hinv. done.
  - intros ex. unfold dispatch_episode_processing.
    destruct (send_task _) as [t'|ex'] eqn:Hsend; simpl; [done|].
    by intros [= <-].
  - intros t1 m1 t2 m2 [-> _]%Hinv [-> _]%Hinv. cbn [wm_callback_url].
    intros Heq. apply string_app_inv_head in Heq.
    apply (string_app_inv_head "/upload/") in Heq. by apply str_inj.
Qed.

(** ** The feed table in every reachable state *)

Lemma create_feed_feeds ingest_feed now metadata rss_url w :
  let w' := (create_feed ingest_feed now metadata rss_url w).2 in
  feeds w' = feeds w
  \/ exists feed,
       (create_feed ingest_feed now metadata rss_url w).1 = Ok feed
       /\ feeds w' = <[fresh (dom (feeds w)) := feed]> (feeds w).
Proof.
  destruct (create_feed ingest_feed now metadata rss_url w).1 as [feed|ex] eqn:Hr.
  - right. exists feed. split; [done|].
    by destruct (create_feed_ok_inv _ _ _ _ _ _ Hr) as (_ & _ & Hfeeds & _).
  - left. revert Hr. unfold create_feed.
    destruct (select _ (feeds w)); [|done].
    destruct metadata; [|done]. by destruct (ingest_feed _ _) as [[??]|?].
Qed.

Lemma step_feeds send_json send_task w w' :
  step send_json send_task w w' ->
  feeds w' = feeds w
  \/ (exists feed_id, feeds w' = delete feed_id (feeds w))
  \/ (exists now metadata ingest rss_url feed,
        (create_feed ingest now metadata rss_url w).1 = Ok feed
        /\ feeds w' = <[fresh (dom (feeds w)) := feed]> (feeds w)).
Proof.
  intros Hstep. destruct Hstep.
  - destruct (create_feed_feeds (ingest_feed now document) now metadata rss_url w)
      as [Heq|(feed & Hok & Heq)]; [by left|].
    right. right. by exists now, metadata, (ingest_feed now document), rss_url, feed.
  - left. unfold trigger_ingest. destruct (feeds w !! feed_id); [|done].
    by destruct (ingest_feed now document feed_id (episodes w)) as [[??]|?].
  - unfold delete_feed. destruct (feeds w !! feed_id); [|by left].
    right. left. by exists feed_id.
  - by left.
  - left. by rewrite ignore_episodes_world.
  - left. by rewrite unignore_episodes_world.
  - left. by destruct (upload_tables send_json now env episode_id file w).
  - left. unfold update_progress.
    by destruct (broadcast_returns send_json
                   (mkProgress episode_id progress stage) w) as (s & log & ->).
  - by left.
  - by left.
Qed.

(** X22.  In every state the manager can reach from the empty store by
    feed creation, ingestion, feed deletion, queue, ignore, un-ignore,
    completion callbacks, progress reports and observers coming and going,
    no two feeds have the same URL and every feed is stored under its own
    id. *)
Theorem reachable_feeds_have_unique_urls
    (send_json : WebSocket -> ProgressMessage -> result unit)
    (send_task : Broker) (w : World) :
  reachable send_json send_task w ->
  unique_urls (feeds w) /\ feeds_keyed_by_id (feeds w).
Proof.
  induction 1 as [|w w' _ [Huniq Hkeys] Hstep].
  - split.
    + intros i j f g Hi. cbn in Hi. by rewrite lookup_empty in Hi.
    + intros k f Hk. cbn in Hk. by rewrite lookup_empty in Hk.
  - destruct (step_feeds _ _ _ _ Hstep)
      as [-> | [(feed_id & ->) | (now & md & ingest & url & feed & Hok & ->)]].
    + done.
    + split.
      * intros i j f g [_ Hi]%lookup_delete_Some [_ Hj]%lookup_delete_Some.
        by apply Huniq.
      * intros k f [_ Hk]%lookup_delete_Some. by apply Hkeys.
    + destruct (create_feed_ok_inv _ _ _ _ _ _ Hok)
        as (Hnew & (md' & _ & Hfeed) & _). split.
      * intros i j f g Hi Hj Hurl.
        apply lookup_insert_Some in Hi as [[Hi Hf]|[Hni Hi]];
          apply lookup_insert_Some in Hj as [[Hj Hg]|[Hnj Hj]].
        -- congruence.
        -- rewrite <- Hf, Hfeed in Hurl. simpl in Hurl. by destruct (Hnew j g).
        -- rewrite <- Hg, Hfeed in Hurl. simpl in Hurl. by destruct (Hnew i f).
        -- by apply (Huniq i j f g).
      * intros k f [[<- <-]|[_ Hk]]%lookup_insert_Some; [|by apply Hkeys].
        by rewrite Hfeed.
Qed.

Lemma reachable_feeds_have_unique_urls_witness :
  let w :=
    (create_feed (ingest_feed 100 (Ok [mkItem "guid-a" "Episode A"
                                          "http://example.com/a.mp3"]))
       100 (Some sample_metadata) "http://example.com/rss" empty_world).2 in
  unique_urls (feeds w) /\ feeds_keyed_by_id (feeds w).
Proof.
  apply (reachable_feeds_have_unique_urls socket_up broker_up).
  apply (reachable_step socket_up broker_up empty_world).
  - apply reachable_init.
  - apply (step_create_feed socket_up broker_up 100 (Some sample_metadata)
             (Ok [mkItem "guid-a" "Episode A" "http://example.com/a.mp3"])
             "http://example.com/rss" empty_world).
Defined.
